(** * clique-cabana-bot: the reminder engine and the opt-in registry

    A shallow embedding of [src/index.js] (and of the older
    [runReminderCheck] kept in the repository) together with the
    properties the design document states about them.

    Conventions of the embedding.
    - A JSON document is a [json] value; JavaScript's [undefined] is [None]
      in [option json]. The program computes with none of the numbers of
      its documents, so a number is an integer here.
    - A text file is identified with what [JSON.parse] makes of its
      characters: either a document or text the parser rejects.
    - Instants are epoch milliseconds in [Z]; the minute difference is taken
      in exact arithmetic (no floating point).
    - A handler is a function of the process memory (the fired markers and
      the disk) that returns a result or an exception, the memory it
      leaves, and the platform calls it made, in order. What the platform
      and the clock answer during a handler is part of the handler's input.
    - Handlers run one after the other. [runReminderCheck] reads and adds
      its marker between two [await]s, so two ticks that overlap in time
      still decide one after the other.
    - luxon's parser, the text of a template literal and discord.js's
      embed builder are parameters ([Library]); so is the channel
      identifier of the environment ([Env]).
    - The welcome of a member and the start of the bot are handlers of a
      second monad ([IO]) with their own calls; the other identifiers of
      the environment ([Guild]) and luxon's formatter ([Calendar]) are
      parameters as well. *)

From stdpp Require Import gmap strings list pretty.

Set Warnings "-register-all,-clear-no-such-hyp".

Open Scope Z_scope.

(** ** Values *)

Inductive json :=
| JNull
| JBool (b : bool)
| JNum (n : Z)
| JStr (s : string)
| JArr (items : list json)
| JObj (props : gmap string json).

(** [Boolean(v)]: the values JavaScript treats as false are [undefined],
    [null], [false], [0] and the empty string. *)
Definition truthy (v : option json) : bool :=
  match v with
  | None | Some JNull => false
  | Some (JBool b) => b
  | Some (JNum n) => negb (n =? 0)%Z
  | Some (JStr s) => negb (String.eqb s "")
  | Some (JArr _) | Some (JObj _) => true
  end.

(** [v || d]. *)
Definition or_else (v : option json) (d : json) : json :=
  match v with
  | Some x => if truthy v then x else d
  | None => d
  end.

Inductive exn := TypeError | SyntaxError | FsError | ValidationError | DeliveryError.

Inductive result (A : Type) :=
| Ok (a : A)
| Throw (e : exn).
Arguments Ok {A} a.
Arguments Throw {A} e.

(** [v.k] for the property names the program reads ([events], [startISO],
    [id], [dmOptInUserIds]): none of them is defined on a prototype, so only
    an object can answer; reading a property of [null] raises. *)
Definition prop (v : json) (k : string) : result (option json) :=
  match v with
  | JNull => Throw TypeError
  | JObj m => Ok (m !! k)
  | _ => Ok None
  end.

(** [v.k = x] followed by serialisation of [v]: an object gets or replaces
    the property; on a primitive the assignment is dropped (the module is
    not in strict mode), and [JSON.stringify] does not print a named
    property of an array; [null] raises. *)
Definition set_prop (v : json) (k : string) (x : json) : result json :=
  match v with
  | JNull => Throw TypeError
  | JObj m => Ok (JObj (<[k := x]> m))
  | _ => Ok v
  end.

(** A byte that continues a UTF-8 sequence ([10xxxxxx]). *)
Definition continues (c : Ascii.ascii) : bool :=
  match c with
  | Ascii.Ascii _ _ _ _ _ _ b6 b7 => b7 && negb b6
  end.

(** Whether a string starts with a byte that continues a sequence. *)
Definition starts_inside (s : string) : bool :=
  match s with
  | String c _ => continues c
  | EmptyString => false
  end.

(** The code points of a string, one string each: a string is its UTF-8
    bytes here, and a byte that continues a sequence stays with the byte
    before it. *)
Fixpoint code_points (s : string) : list string :=
  match s with
  | EmptyString => []
  | String c rest =>
      match code_points rest with
      | p :: ps =>
          if starts_inside rest then String c p :: ps
          else String c EmptyString :: p :: ps
      | [] => [String c EmptyString]
      end
  end.

(** The characters a string yields when it is iterated: its code points. *)
Definition chars (s : string) : list json := JStr <$> code_points s.

(** The iteration protocol ([for ... of], [new Set(iterable)]): an array
    yields its items, a string its code points; any other value is not
    iterable. *)
Definition iterate (v : json) : result (list json) :=
  match v with
  | JArr items => Ok items
  | JStr s => Ok (chars s)
  | _ => Throw TypeError
  end.

(** [v.length], as read by the older reminder loop, which only tests
    whether it is zero. *)
Definition length_of (v : json) : option json :=
  match v with
  | JArr items => Some (JNum (Z.of_nat (length items)))
  | JStr s => Some (JNum (Z.of_nat (String.length s)))
  | JObj m => m !! "length"
  | _ => None
  end.

(** SameValueZero between two values read from one document: primitives
    compare by value, two arrays or objects are always distinct references. *)
Definition same_value (a b : json) : bool :=
  match a, b with
  | JNull, JNull => true
  | JBool x, JBool y => Bool.eqb x y
  | JNum x, JNum y => (x =? y)%Z
  | JStr x, JStr y => String.eqb x y
  | _, _ => false
  end.

(** [id !== uid] where [uid] is a string. *)
Definition strict_ne (a : json) (uid : string) : bool :=
  negb (same_value a (JStr uid)).

(** A JavaScript [Set] keeps its members in insertion order. *)
Definition Set_has (x : json) (s : list json) : bool := existsb (same_value x) s.

Definition Set_add (x : json) (s : list json) : list json :=
  if Set_has x s then s else s ++ [x].

Definition new_Set (items : list json) : list json :=
  fold_left (fun s x => Set_add x s) items [].

Definition Array_from (s : list json) : json := JArr s.

(** The same operations on a list of user ids that are all strings. *)
Definition add_id (uid : string) (ids : list string) : list string :=
  if bool_decide (uid ∈ ids) then ids else ids ++ [uid].

Definition uniq (ids : list string) : list string :=
  fold_left (fun s x => add_id x s) ids [].

Definition remove_id (uid : string) (ids : list string) : list string :=
  List.filter (fun x => negb (String.eqb x uid)) ids.

(** ** The disk *)

Inductive text := Garbled | Json (d : json).

Inductive file := Missing | Text (t : text).

Inductive data_dir := NoDir | Dir (optins : file).

(** [data] is the directory [DATA_DIR] with [optins.json] inside;
    [events_json] is the catalog next to the program; [writable] tells
    whether the file system accepts creating and writing. *)
Record disk := Disk {
  data : data_dir;
  events_json : file;
  writable : bool
}.

Inductive path := DATA_DIR | OPTINS_PATH | EVENTS_PATH.

Definition JSON_parse (t : text) : result json :=
  match t with
  | Garbled => Throw SyntaxError
  | Json d => Ok d
  end.

Definition JSON_stringify (d : json) : text := Json d.

(** The store on [d] is the object [p] and lists the user ids [ids]. *)
Definition holds (d : disk) (p : gmap string json) (ids : list string) : Prop :=
  data d = Dir (Text (Json (JObj p))) /\
  p !! "dmOptInUserIds" = Some (JArr (JStr <$> ids)).

(** The disk [d] once the store is rewritten as [p] with the list [ids]. *)
Definition rewritten (d : disk) (p : gmap string json) (ids : list string) : disk :=
  Disk (Dir (Text (Json (JObj (<["dmOptInUserIds" := JArr (JStr <$> ids)]> p)))))
       (events_json d) (writable d).

(** ** Process memory, platform calls, and the handler monad *)

Record mem := Mem {
  reminderState : gset string;
  fs : disk
}.

(** The calls a handler makes on the chat platform and the console. A call
    made while delivering a reminder carries the key of that reminder. *)
Inductive effect {E : Type} :=
| Log (line : string)
| ChannelFetch
| ChannelSend (key : string) (content : string) (embed : E)
| UserFetch (key : string) (userId : json)
| UserSend (key : string) (userId : json)
| Reply (content : option string) (embed : option E).
Arguments effect E : clear implicits.

Definition M (E A : Type) : Type := mem -> result A * mem * list (effect E).

Definition ret {E A} (a : A) : M E A := fun m => (Ok a, m, []).

Definition bind {E A B} (c : M E A) (k : A -> M E B) : M E B :=
  fun m =>
    match c m with
    | (Ok a, m1, t1) =>
        match k a m1 with
        | (r, m2, t2) => (r, m2, t1 ++ t2)
        end
    | (Throw e, m1, t1) => (Throw e, m1, t1)
    end.

Definition throw {E A} (e : exn) : M E A := fun m => (Throw e, m, []).

Definition lift {E A} (r : result A) : M E A := fun m => (r, m, []).

(** [try { c } catch { h }]: what [c] did before raising stays done. *)
Definition try_catch {E A} (c : M E A) (h : M E A) : M E A :=
  fun m =>
    match c m with
    | (Ok a, m1, t1) => (Ok a, m1, t1)
    | (Throw _, m1, t1) =>
        match h m1 with
        | (r, m2, t2) => (r, m2, t1 ++ t2)
        end
    end.

Definition emit {E} (e : effect E) : M E unit := fun m => (Ok tt, m, [e]).

Definition get_fs {E} : M E disk := fun m => (Ok (fs m), m, []).

Definition put_fs {E} (d : disk) : M E unit :=
  fun m => (Ok tt, Mem (reminderState m) d, []).

Definition reminderState_has {E} (key : string) : M E bool :=
  fun m => (Ok (bool_decide (key ∈ reminderState m)), m, []).

Definition reminderState_add {E} (key : string) : M E unit :=
  fun m => (Ok tt, Mem ({[key]} ∪ reminderState m) (fs m), []).

Declare Scope js_scope.
Delimit Scope js_scope with js.
Notation "x <- c ;; k" := (bind c (fun x => k))
  (at level 100, c at next level, right associativity) : js_scope.
Notation "c ;;; k" := (bind c (fun _ => k))
  (at level 100, right associativity) : js_scope.
Open Scope js_scope.

(** ** File storage helpers *)

Definition existsSync {E} (p : path) : M E bool :=
  d <- get_fs ;;
  ret match p with
      | DATA_DIR => match data d with NoDir => false | Dir _ => true end
      | OPTINS_PATH => match data d with Dir (Text _) => true | _ => false end
      | EVENTS_PATH => match events_json d with Text _ => true | Missing => false end
      end.

(** [fs.mkdirSync(DATA_DIR)]. *)
Definition mkdirSync_DATA_DIR {E} : M E unit :=
  d <- get_fs ;;
  match data d with
  | NoDir =>
      if writable d then put_fs (Disk (Dir Missing) (events_json d) (writable d))
      else throw FsError
  | Dir _ => throw FsError
  end.

Definition readFileSync {E} (p : path) : M E text :=
  d <- get_fs ;;
  match p with
  | DATA_DIR => throw FsError
  | OPTINS_PATH =>
      match data d with Dir (Text t) => ret t | _ => throw FsError end
  | EVENTS_PATH =>
      match events_json d with Text t => ret t | Missing => throw FsError end
  end.

Definition writeFileSync {E} (p : path) (t : text) : M E unit :=
  d <- get_fs ;;
  if negb (writable d) then throw FsError else
  match p with
  | DATA_DIR => throw FsError
  | OPTINS_PATH =>
      match data d with
      | NoDir => throw FsError
      | Dir _ => put_fs (Disk (Dir (Text t)) (events_json d) (writable d))
      end
  | EVENTS_PATH => put_fs (Disk (data d) (Text t) (writable d))
  end.

(** [{ dmOptInUserIds: [] }]. *)
Definition empty_optins : json := JObj {["dmOptInUserIds" := JArr []]}.

Definition ensureDataFiles {E} : M E unit :=
  has_dir <- existsSync DATA_DIR ;;
  (if negb has_dir then mkdirSync_DATA_DIR else ret tt) ;;;
  has_file <- existsSync OPTINS_PATH ;;
  if negb has_file then writeFileSync OPTINS_PATH (JSON_stringify empty_optins)
  else ret tt.

Definition readOptins {E} : M E json :=
  ensureDataFiles ;;;
  try_catch
    (t <- readFileSync OPTINS_PATH ;; lift (JSON_parse t))
    (ret empty_optins).

Definition writeOptins {E} (data : json) : M E unit :=
  ensureDataFiles ;;;
  writeFileSync OPTINS_PATH (JSON_stringify data).

(** [Array.isArray(v) ? v : []]. *)
Definition array_or_empty (v : option json) : list json :=
  match v with
  | Some (JArr items) => items
  | _ => []
  end.

Definition readEvents {E} : M E (list json) :=
  try_catch
    (raw <- readFileSync EVENTS_PATH ;;
     parsed <- lift (JSON_parse raw) ;;
     events <- lift (prop parsed "events") ;;
     ret (array_or_empty events))
    (ret []).

(** The list [readEvents] returns, as a function of the catalog file
    (lemma [readEvents_eq]). *)
Definition catalog_events (f : file) : list json :=
  match f with
  | Text (Json (JObj p)) => array_or_empty (p !! "events")
  | _ => []
  end.

(** ** What the program takes from its libraries and its environment *)

(** - [fromISO v] is [DateTime.fromISO(v, { zone: TZ })]: the instant in
      epoch milliseconds, or [None] when the result is not valid.
    - [ToString v] is the text a template literal prints for [v].
    - [formatEventEmbed e] is the embed built for the event [e] through
      discord.js's [EmbedBuilder], or [None] when a setter rejects a value. *)
Class Library := {
  fromISO : option json -> option Z;
  ToString : option json -> string;
  Embed : Type;
  formatEventEmbed : json -> option Embed
}.

(** [process.env]. *)
Class Env := {
  EVENT_CHANNEL_ID : option string
}.

(** [!EVENT_CHANNEL_ID] is false. *)
Definition configured (id : option string) : bool :=
  match id with
  | Some s => negb (String.eqb s "")
  | None => false
  end.

(** What one run of the reminder check reads from the clock and gets back
    from the platform: the two readings of [DateTime.now()], whether the
    channel is found, whether it takes the announcement of a reminder, and,
    for the recipient at each position of the opt-in list, whether the user
    is found and whether the user takes a direct message. *)
Record tick := Tick {
  now_select : Z;
  now_check : Z;
  channel_found : bool;
  channel_accepts : string -> bool;
  user_found : nat -> json -> bool;
  user_accepts : nat -> json -> bool
}.

Record window := Window {
  label : string;
  minutes : Z;
  message : string
}.

(** [Math.round(ms / 60000)]: the nearest minute, a half going up. *)
Definition round_minutes (ms : Z) : Z := (ms + 30000) / 60000.

(** [Math.round(start.diff(now, "minutes").minutes)]; an invalid [start]
    gives [NaN], here [None]. *)
Definition minutesUntil (start : option Z) (now : Z) : option Z :=
  match start with
  | Some t => Some (round_minutes (t - now))
  | None => None
  end.

(** [Math.abs(minutesUntil - w.minutes) <= 1]; false on [NaN]. *)
Definition shouldTrigger (until : option Z) (w : window) : bool :=
  match until with
  | Some u => Z.abs (u - minutes w) <=? 1
  | None => false
  end.

(** A property of the copy [{ ...e, dt }] other than [dt]. *)
Definition field (e : json) (k : string) : option json :=
  match e with
  | JObj m => m !! k
  | _ => None
  end.

(** [events.sort((a, b) => a.dt.toMillis() - b.dt.toMillis())]: the sort
    is stable, so each element goes before the first one that is not
    earlier than it. *)
Fixpoint insert_by_dt (x : json * Z) (l : list (json * Z)) : list (json * Z) :=
  match l with
  | [] => [x]
  | y :: rest => if x.2 <=? y.2 then x :: l else y :: insert_by_dt x rest
  end.

Definition sort_by_dt (l : list (json * Z)) : list (json * Z) :=
  foldr insert_by_dt [] l.

(** [e.dt.isValid && e.dt > now]. *)
Definition upcoming_at (now : Z) (x : json * option Z) : option (json * Z) :=
  match x.2 with
  | Some t => if now <? t then Some (x.1, t) else None
  | None => None
  end.

Section Bot.
Context `{Library} `{Env}.

Local Abbreviation M := (M Embed).

(** [events.map((e) => ({ ...e, dt: DateTime.fromISO(e.startISO, ...) }))]. *)
Fixpoint map_dt (events : list json) : result (list (json * option Z)) :=
  match events with
  | [] => Ok []
  | e :: rest =>
      match prop e "startISO" with
      | Throw x => Throw x
      | Ok v =>
          match map_dt rest with
          | Throw x => Throw x
          | Ok l => Ok ((e, fromISO v) :: l)
          end
      end
  end.

(** [getNextEvent(events)] with the reading [now] of the clock; the
    result pairs the event with its [dt]. *)
Definition getNextEvent (events : list json) (now : Z) : result (option (json * Z)) :=
  match map_dt events with
  | Throw x => Throw x
  | Ok mapped => Ok (head (sort_by_dt (omap (upcoming_at now) mapped)))
  end.

Definition key_of (e : json) (w : window) : string :=
  ToString (field e "id") +:+ ":" +:+ label w.

Definition fetch_channel (t : tick) : M bool :=
  emit ChannelFetch ;;; ret (channel_found t).

Definition channel_send (t : tick) (key : string) (w : window) (embed : Embed) : M unit :=
  emit (ChannelSend key (message w) embed) ;;;
  if channel_accepts t key then ret tt else throw DeliveryError.

(** [client.users.fetch(userId).catch(() => null)]. *)
Definition fetch_user (t : tick) (key : string) (i : nat) (userId : json) : M bool :=
  try_catch
    (emit (UserFetch key userId) ;;;
     if user_found t i userId then ret true else throw DeliveryError)
    (ret false).

Definition user_send (t : tick) (key : string) (i : nat) (userId : json) : M unit :=
  emit (UserSend key userId) ;;;
  if user_accepts t i userId then ret tt else throw DeliveryError.

(** [for (const userId of ids) { ... }], from position [i] on. *)
Fixpoint dm_loop (t : tick) (key : string) (i : nat) (ids : list json) : M unit :=
  match ids with
  | [] => ret tt
  | userId :: rest =>
      user <- fetch_user t key i userId ;;
      (if negb user then ret tt
       else try_catch (user_send t key i userId) (ret tt)) ;;;
      dm_loop t key (S i) rest
  end.

Definition window_24h : window :=
  Window "24h" (24 * 60) "⏳ **24 hours** until the next Clique Cabana.".

(** [readOptins().dmOptInUserIds || []], as the loop over it reads it. *)
Definition listOptedIn : M (list json) :=
  optins <- readOptins ;;
  v <- lift (prop optins "dmOptInUserIds") ;;
  lift (iterate (or_else v (JArr []))).

(** What [runReminderCheck] does once the marker is added: the embed, the
    announcement in the channel, then the direct messages to the opt-ins. *)
Definition deliver (t : tick) (e : json) (key : string) (w : window) : M unit :=
  match formatEventEmbed e with
  | None => throw ValidationError
  | Some embed =>
      channel_send t key w embed ;;;
      ids <- listOptedIn ;;
      dm_loop t key 0 ids
  end.

Definition runReminderCheck (t : tick) : M unit :=
  events <- readEvents ;;
  next <- lift (getNextEvent events (now_select t)) ;;
  match next with
  | None => ret tt
  | Some (e, _) =>
      if negb (configured EVENT_CHANNEL_ID) then ret tt else
      channel <- fetch_channel t ;;
      if negb channel then ret tt else
      let start := fromISO (field e "startISO") in
      let until := minutesUntil start (now_check t) in
      let w := window_24h in
      let key := key_of e w in
      fired <- reminderState_has key ;;
      if shouldTrigger until w && negb fired then
        reminderState_add key ;;;
        deliver t e key w
      else ret tt
  end.

(** *** Slash commands *)

(** [(v).filter((id) => id !== uid)]: only an array has [filter]. *)
Definition filter_ne (v : json) (uid : string) : result json :=
  match v with
  | JArr items => Ok (JArr (List.filter (fun id => strict_ne id uid) items))
  | _ => Throw TypeError
  end.

(** The body of the [remindme] branch up to [writeOptins]. *)
Definition remindme (uid : string) : M unit :=
  optins <- readOptins ;;
  v <- lift (prop optins "dmOptInUserIds") ;;
  items <- lift (iterate (or_else v (JArr []))) ;;
  let set := Set_add (JStr uid) (new_Set items) in
  optins' <- lift (set_prop optins "dmOptInUserIds" (Array_from set)) ;;
  writeOptins optins'.

(** The body of the [remindoff] branch up to [writeOptins]. *)
Definition remindoff (uid : string) : M unit :=
  optins <- readOptins ;;
  v <- lift (prop optins "dmOptInUserIds") ;;
  kept <- lift (filter_ne (or_else v (JArr [])) uid) ;;
  optins' <- lift (set_prop optins "dmOptInUserIds" kept) ;;
  writeOptins optins'.

Record interaction := Interaction {
  isChatInputCommand : bool;
  commandName : string;
  user_id : string;
  clock : Z;
  reply_accepts : bool
}.

Definition reply (i : interaction) (content : option string) (embed : option Embed) : M unit :=
  emit (Reply content embed) ;;;
  if reply_accepts i then ret tt else throw DeliveryError.

(** The [interactionCreate] handler. *)
Definition interactionCreate (i : interaction) : M unit :=
  if negb (isChatInputCommand i) then ret tt else
  events <- readEvents ;;
  next <- lift (getNextEvent events (clock i)) ;;
  if String.eqb (commandName i) "nextevent" then
    match next with
    | None => reply i (Some "No upcoming events listed yet 🖤") None
    | Some (e, _) =>
        match formatEventEmbed e with
        | None => throw ValidationError
        | Some embed => reply i None (Some embed)
        end
    end
  else if String.eqb (commandName i) "remindme" then
    remindme (user_id i) ;;;
    reply i (Some "✅ You’re opted in. I’ll DM you a reminder 24 hours before events.") None
  else if String.eqb (commandName i) "remindoff" then
    remindoff (user_id i) ;;;
    reply i (Some "✅ Opted out. You won’t receive event reminder DMs.") None
  else ret tt.

(** *** The process *)

(** What happens to the process between its start and its end: a tick of
    the scheduler, a command, or a change made to the files from outside
    (the catalog is edited by hand). *)
Inductive event :=
| OnTick (t : tick)
| OnInteraction (i : interaction)
| OnDiskEdit (d : disk).

Definition handle (ev : event) : M unit :=
  match ev with
  | OnTick t => runReminderCheck t
  | OnInteraction i => interactionCreate i
  | OnDiskEdit d => put_fs d
  end.

(** The events are handled one after the other; a handler that raises
    leaves the memory as it was when it raised, and the process goes on
    (a process that stops there has run a prefix of the list). *)
Fixpoint run (evs : list event) (m : mem) : mem * list (effect Embed) :=
  match evs with
  | [] => (m, [])
  | ev :: rest =>
      match handle ev m with
      | (_, m1, t1) =>
          match run rest m1 with
          | (m2, t2) => (m2, t1 ++ t2)
          end
      end
  end.

(** The announcements made for the reminder [key] in a trace. *)
Definition is_announcement (key : string) (x : effect Embed) : bool :=
  match x with
  | ChannelSend k _ _ => String.eqb k key
  | _ => false
  end.

Definition announcements (key : string) (tr : list (effect Embed)) : nat :=
  length (List.filter (is_announcement key) tr).

(** The users a trace tried to reach for the reminder [key], in order. *)
Definition attempted (key : string) (tr : list (effect Embed)) : list json :=
  omap (fun x => match x with
                 | UserFetch k u => if String.eqb k key then Some u else None
                 | _ => None
                 end) tr.

Definition messaged (key : string) (tr : list (effect Embed)) : list json :=
  omap (fun x => match x with
                 | UserSend k u => if String.eqb k key then Some u else None
                 | _ => None
                 end) tr.

Definition logged (tr : list (effect Embed)) : list string :=
  omap (fun x => match x with Log line => Some line | _ => None end) tr.

(** The reminder a platform call belongs to, if any. *)
Definition tag (x : effect Embed) : option string :=
  match x with
  | ChannelSend k _ _ | UserFetch k _ | UserSend k _ => Some k
  | _ => None
  end.

(** Nothing in the trace is done for the reminder [key]: no announcement,
    no attempt to reach a user. *)
Definition silent_for (key : string) (tr : list (effect Embed)) : Prop :=
  Forall (fun x => tag x <> Some key) tr.

(** [hasFired]: the state of a reminder, fired or pending. *)
Definition hasFired (m : mem) (key : string) : bool :=
  bool_decide (key ∈ reminderState m).

(** The event [getNextEvent] selects when the tick [t] starts on [m]. *)
Definition selected (t : tick) (m : mem) : result (option (json * Z)) :=
  getNextEvent (catalog_events (events_json (fs m))) (now_select t).

(** The tolerance-window predicate of the tick [t] for the event [e]. *)
Definition due (t : tick) (e : json) (w : window) : bool :=
  shouldTrigger (minutesUntil (fromISO (field e "startISO")) (now_check t)) w.

(** The tick [t] on [m] gets as far as the window check, with [e] as the
    next event: an event is selected, the channel is configured and found. *)
Definition reaches (t : tick) (m : mem) (e : json) : Prop :=
  (exists dt, selected t m = Ok (Some (e, dt))) /\
  configured EVENT_CHANNEL_ID = true /\
  channel_found t = true.

(** The store on [d] is a document whose opt-in list iterates as [ids]. *)
Definition lists (d : disk) (ids : list json) : Prop :=
  exists doc v, data d = Dir (Text (Json doc)) /\
    prop doc "dmOptInUserIds" = Ok v /\
    iterate (or_else v (JArr [])) = Ok ids.

(** The tick [t] on [m] reaches the window check with [e] as next event,
    [e] starts at [T], and the tick reads the clock [k] minutes before
    [T], at most half a minute late. *)
Definition minutes_before (t : tick) (m : mem) (e : json) (T k : Z) : Prop :=
  reaches t m e /\
  fromISO (field e "startISO") = Some T /\
  exists late, 0 <= late <= 30000 /\ now_check t = T - k * 60000 + late.

(** A computation that makes no platform call and leaves the markers as
    they are (it may write to the disk, and it may raise). *)
Definition quiet {A} (c : M A) : Prop :=
  forall m, exists r d, c m = (r, Mem (reminderState m) d, []).

(** A computation that leaves the markers as they are and does nothing
    for any reminder (it may reply to a command). *)
Definition calm {A} (c : M A) : Prop :=
  forall m, exists r d tr, c m = (r, Mem (reminderState m) d, tr) /\
    forall k, silent_for k tr.

(** The start of an event, when it parses to an instant after [now]. *)
Definition qualifies (now : Z) (e : json) : option (json * Z) :=
  upcoming_at now (e, fromISO (field e "startISO")).

(** The recipients, from position [i] on, that the platform finds. *)
Fixpoint found_from (t : tick) (i : nat) (ids : list json) : list json :=
  match ids with
  | [] => []
  | u :: rest =>
      if user_found t i u then u :: found_from t (S i) rest
      else found_from t (S i) rest
  end.
End Bot.

(** ** The older reminder check (24 hours and 2 hours, with a notice)

    The repository keeps two earlier versions of the bot. This is
    [runReminderCheck] of the earliest one: it loops over two windows, it
    prints a notice when the channel is not configured, and it guards the
    loop over the opt-ins by the length of the list. (The version in
    between loops over the same two windows and returns without a notice,
    as [src/index.js] does.) The older file has a [formatEventEmbed] of
    its own, which names the field of the link differently: the
    [Library] this module is read with stands for the libraries of the
    older file, and a comparison with the current check gives the two
    their own builders ([with_formatEventEmbed]). The direct message of
    the older file has another wording as well (the title is not in
    bold); a trace records who is messaged, not the text. *)

Module Old.
Section Bot.
Context `{Library} `{Env}.

Local Abbreviation M := (M Embed).

Definition windows : list window :=
  [ Window "24h" (24 * 60) "⏳ **24 hours** until the next Clique Cabana.";
    Window "2h" (2 * 60) "🔥 **2 hours** until Clique Cabana. Pre-game accordingly." ].

(** [optins.dmOptInUserIds?.length]. *)
Definition optional_length (v : option json) : option json :=
  match v with
  | None | Some JNull => None
  | Some x => length_of x
  end.

(** [for (const userId of v)] on a value that may be [undefined]. *)
Definition iterate_value (v : option json) : result (list json) :=
  match v with
  | Some x => iterate x
  | None => Throw TypeError
  end.

Definition deliver (t : tick) (e : json) (key : string) (w : window) : M unit :=
  match formatEventEmbed e with
  | None => throw ValidationError
  | Some embed =>
      channel_send t key w embed ;;;
      optins <- readOptins ;;
      v <- lift (prop optins "dmOptInUserIds") ;;
      if truthy (optional_length v) then
        ids <- lift (iterate_value v) ;;
        dm_loop t key 0 ids
      else ret tt
  end.

(** The body of [for (const w of windows)]. *)
Definition check_window (t : tick) (e : json) (until : option Z) (w : window) : M unit :=
  let key := key_of e w in
  fired <- reminderState_has key ;;
  if shouldTrigger until w && negb fired then
    reminderState_add key ;;;
    deliver t e key w
  else ret tt.

Fixpoint for_of (ws : list window) (body : window -> M unit) : M unit :=
  match ws with
  | [] => ret tt
  | w :: rest => body w ;;; for_of rest body
  end.

Definition runReminderCheck (t : tick) : M unit :=
  events <- readEvents ;;
  next <- lift (getNextEvent events (now_select t)) ;;
  match next with
  | None => ret tt
  | Some (e, _) =>
      if negb (configured EVENT_CHANNEL_ID) then
        emit (Log "⚠️ EVENT_CHANNEL_ID not set — reminders won’t post.")
      else
      channel <- fetch_channel t ;;
      if negb channel then ret tt else
      let start := fromISO (field e "startISO") in
      let until := minutesUntil start (now_check t) in
      for_of windows (check_window t e until)
  end.
End Bot.
End Old.

(** The library [L] with the embed builder [build] in place of its own. *)
Definition with_formatEventEmbed (L : Library)
    (build : json -> option (@Embed L)) : Library :=
  {| fromISO := @fromISO L;
     ToString := @ToString L;
     Embed := @Embed L;
     formatEventEmbed := build |}.

(** A call without the embed it carries. *)
Definition outline {E} (x : effect E) : effect unit :=
  match x with
  | Log line => Log line
  | ChannelFetch => ChannelFetch
  | ChannelSend key content _ => ChannelSend key content tt
  | UserFetch key userId => UserFetch key userId
  | UserSend key userId => UserSend key userId
  | Reply content embed =>
      Reply content match embed with Some _ => Some tt | None => None end
  end.

(** ** Sample data *)

Module Sample.
(** Three instants the catalog uses, in the bot's zone:
    2025-02-07T14:00, 2025-02-21T14:00 and 2024-12-31T22:00. *)
Definition T : Z := 1738954800000.

Definition parse (v : option json) : option Z :=
  match v with
  | Some (JStr s) =>
      if String.eqb s "2025-02-07T14:00" then Some T
      else if String.eqb s "2025-02-21T14:00" then Some 1740164400000
      else if String.eqb s "2024-12-31T22:00" then Some 1735700400000
      else None
  | _ => None
  end.

Fixpoint show (v : json) : string :=
  match v with
  | JStr s => s
  | JNull => "null"
  | JBool b => if b then "true" else "false"
  | JNum n => pretty n
  | JArr items =>
      String.concat ","
        (List.map (fun x => match x with JNull => "" | _ => show x end) items)
  | JObj _ => "[object Object]"
  end.

Definition print (v : option json) : string :=
  match v with
  | Some x => show x
  | None => "undefined"
  end.

Definition lib : Library :=
  {| fromISO := parse;
     ToString := print;
     Embed := string;
     formatEventEmbed := fun e =>
       match field e "title" with
       | Some (JStr s) => Some s
       | _ => Some "Clique Cabana Event"
       end |}.

Definition env_set : Env := {| EVENT_CHANNEL_ID := Some "1458512486125797000" |}.
Definition env_unset : Env := {| EVENT_CHANNEL_ID := None |}.

Definition lee_foss : json :=
  JObj (list_to_map [("id", JStr "lee-foss"); ("title", JStr "Lee Foss");
                     ("startISO", JStr "2025-02-07T14:00")]).

Definition justin_martin : json :=
  JObj (list_to_map [("id", JStr "justin-martin"); ("title", JStr "Justin Martin");
                     ("startISO", JStr "2025-02-21T14:00")]).

Definition new_year : json :=
  JObj (list_to_map [("id", JStr "nye"); ("startISO", JStr "2024-12-31T22:00")]).

Definition undated : json :=
  JObj (list_to_map [("id", JStr "tba"); ("startISO", JStr "soon")]).

Definition events : list json := [justin_martin; undated; new_year; lee_foss].

Definition catalog : json := JObj {["events" := JArr events]}.

Definition optins (ids : list string) : json :=
  JObj {["dmOptInUserIds" := JArr (JStr <$> ids)]}.

Definition disk_with (ids : list string) : disk :=
  Disk (Dir (Text (Json (optins ids)))) (Text (Json catalog)) true.

Definition fresh : mem := Mem ∅ (disk_with ["ana"; "bo"]).

Definition minute : Z := 60000.

Definition is_ana (u : json) : bool := same_value u (JStr "ana").

(** A tick that reads the clock [k] minutes before [T]; the channel is
    found and takes the announcement when [takes] is true; every user is
    found; [blocked] users refuse direct messages. *)
Definition tick_before (k : Z) (takes : bool) (blocked : json -> bool) : tick :=
  Tick (T - k * minute) (T - k * minute) true (fun _ => takes)
       (fun _ _ => true) (fun _ u => negb (blocked u)).

Definition key : string := "lee-foss:24h".

(** A catalog file without events, and a disk on which nothing exists and
    nothing can be created. *)
Definition no_events : mem :=
  Mem ∅ (Disk (Dir (Text (Json (optins [])))) (Text (Json (JObj ∅))) true).

Definition bare : mem := Mem ∅ (Disk NoDir Missing true).
End Sample.

(** ** The welcome of a new member and the start of the bot

    [guildMemberAdd] and [clientReady] and the functions they call. Of the
    memory they only read the catalog; their calls on the platform are
    their own. *)

(** The rest of [process.env]. *)
Class Guild := {
  GUILD_ID : option string;
  WELCOME_CHANNEL_ID : option string;
  ANNOUNCEMENTS_CHANNEL_ID_env : option string
}.

(** [start.toFormat(fmt)] of luxon, for a start that may be invalid. *)
Class Calendar := {
  toFormat : option Z -> string -> string
}.

(** The line feed, and the lines of a template literal. *)
Definition nl : string := String (Ascii.ascii_of_nat 10) EmptyString.

Definition unlines (ls : list string) : string := String.concat nl ls.

(** [s.includes(sub)]. *)
Fixpoint includes (s sub : string) : bool :=
  String.prefix sub s ||
  match s with
  | EmptyString => false
  | String _ rest => includes rest sub
  end.

Record welcome_embed := WelcomeEmbed {
  title : string;
  description : string;
  thumbnail : string;
  footer : string;
  timestamp : Z
}.

Inductive call :=
| ConsoleLog (line : string)
| RestPut (guild : string) (commands : list string)
| FetchChannel (id : string)
| FetchPinned (id : string)
| Send (id : string) (body : string) (embeds : list welcome_embed)
| Pin (id : string)
| MemberSend (body : string)
| Schedule (expression : string).

Definition IO (A : Type) : Type := mem -> result A * mem * list call.

Definition io_ret {A} (a : A) : IO A := fun m => (Ok a, m, []).

Definition io_bind {A B} (c : IO A) (k : A -> IO B) : IO B :=
  fun m =>
    match c m with
    | (Ok a, m1, t1) =>
        match k a m1 with
        | (r, m2, t2) => (r, m2, t1 ++ t2)
        end
    | (Throw e, m1, t1) => (Throw e, m1, t1)
    end.

Definition io_throw {A} (e : exn) : IO A := fun m => (Throw e, m, []).

Definition io_catch {A} (c : IO A) (h : IO A) : IO A :=
  fun m =>
    match c m with
    | (Ok a, m1, t1) => (Ok a, m1, t1)
    | (Throw _, m1, t1) =>
        match h m1 with
        | (r, m2, t2) => (r, m2, t1 ++ t2)
        end
    end.

Definition io_emit (c : call) : IO unit := fun m => (Ok tt, m, [c]).

(** A computation of the handler monad that calls neither the platform
    nor the console. *)
Definition quietly {E A} (c : M E A) : IO A :=
  fun m => match c m with (r, m1, _) => (r, m1, []) end.

Declare Scope io_scope.
Delimit Scope io_scope with io.
Notation "x <- c ;; k" := (io_bind c (fun x => k))
  (at level 100, c at next level, right associativity) : io_scope.
Notation "c ;;; k" := (io_bind c (fun _ => k))
  (at level 100, right associativity) : io_scope.

(** A message among the pins of a channel: [m.author?.id] and [m.content]. *)
Record pinned := Pinned {
  author_id : option string;
  content : option string
}.

(** A channel as the platform returns it: whether it is text based (only
    then has it messages and [send]), its pins ([None] when [fetchPinned]
    rejects), whether it takes a message, whether the bot may pin. *)
Record channel := Channel {
  isTextBased : bool;
  pins : option (list pinned);
  send_accepts : bool;
  pin_accepts : bool
}.

(** The member who joined: [displayName], [user.username],
    [user.createdAt.getTime()], the mention a template literal prints for
    the member, and [user.displayAvatarURL({ size: 256 })]. *)
Record member := Member {
  displayName : string;
  username : string;
  createdAt : Z;
  mention : string;
  displayAvatarURL : string
}.

(** What one [guildMemberAdd] reads and gets back: the channel found for
    [WELCOME_CHANNEL_ID] ([None] when the fetch rejects), the clock of
    [setTimestamp()] and of [Date.now()], and whether the member takes a
    direct message. *)
Record join := Join {
  joined : member;
  welcome_channel : option channel;
  stamp : Z;
  Date_now : Z;
  dm_accepts : bool
}.

(** What the start of the bot reads and gets back: [client.user.id] and
    [client.user.tag], whether the registration of the commands is
    accepted, the channels found for [EVENT_CHANNEL_ID] and
    [ANNOUNCEMENTS_CHANNEL_ID], and the clock read by [getNextEvent]. *)
Record startup := Startup {
  client_user_id : string;
  client_user_tag : string;
  put_accepts : bool;
  event_channel : option channel;
  announcements_channel : option channel;
  start_now : Z
}.

Definition PUBLIC_WELCOME_TEXT : string :=
  unlines
    [ "Welcome to the Clique Cabana Discord!";
      "This is the home base for our house music family—a collective rooted in Atlanta, built on rhythm, culture, and community. We throw house music events across the city and beyond, bringing together dancers, DJs, creators, and music lovers who live for the groove.";
      "Here you’ll find event announcements, mixes, artist spotlights, and space to connect with like-minded people shaping the sound and culture of Atlanta and surrounding cities. Whether you’re behind the decks, on the dance floor, or just discovering the scene, you’re part of the clique now.";
      "Respect the vibe, support each other, and let the music move you.";
      "Welcome to the Clique 🖤" ].

Definition UPCOMING_EVENTS_PIN_MARKER : string := "CC_UPCOMING_EVENTS_PIN_V2".

Definition ANNOUNCEMENT_PIN_MARKER : string := "CC_FESTIVAL_SERIES_ANNOUNCEMENT_V1".

Definition FESTIVAL_ANNOUNCEMENT_TEXT : string :=
  unlines
    [ "We’re kicking off festival season inside Piedmont Park, right in the heart of Atlanta.";
      "";
      "This three day headline series is the largest event run Clique Cabana has ever produced, bringing three of the most respected names in house music to Atlanta’s most iconic park. As we step into the new year and build momentum toward festival season, this series sets the tone for everything ahead.";
      "";
      "We’re incredibly excited and grateful to welcome these artists to the city and to celebrate together in Atlanta’s largest park. Expect elevated production, immersive sound, and the kind of open air energy that only Piedmont Park can deliver.";
      "";
      "The kickoff on February 7 goes even bigger. This is a full day party running from 2 PM until 10 PM, happening alongside one of the largest daytime festivals in Atlanta, Oyster Fest. In the middle of Piedmont Park, Clique Cabana will host a dedicated takeover stage alongside everything else happening that day. The park will also feature the largest oyster festival of the season, plus an additional stage with a live Blink 182 tribute band, creating a true multi stage, all day experience. Lee Foss will headline the Clique Cabana stage and close out the entire event that night.";
      "";
      "Lineup and dates:";
      "";
      "Lee Foss on February 7";
      "Justin Martin on February 21";
      "Kyle Walker on March 7";
      "";
      "Each event stands on its own while still being part of a larger series experience built for real house music lovers.";
      "";
      ANNOUNCEMENT_PIN_MARKER ].

(** The names of the commands [registerSlashCommands] builds. *)
Definition commands : list string := ["nextevent"; "remindme"; "remindoff"].

(** [(m) => m.author?.id === client.user.id && m.content?.includes(marker)]
    finds a message among the pins. *)
Definition alreadyPinned (me marker : string) (ps : list pinned) : bool :=
  existsb (fun p =>
             match author_id p, content p with
             | Some a, Some c => String.eqb a me && includes c marker
             | _, _ => false
             end) ps.

Section Lifecycle.
Context `{Library} `{Env} `{Guild} `{Calendar}.

Local Open Scope io_scope.

(** *** Calls on the platform *)

(** [client.channels.fetch(id).catch(() => null)]. *)
Definition fetch (id : string) (found : option channel) : IO (option channel) :=
  io_emit (FetchChannel id) ;;; io_ret found.

(** [channel.send(...)]: a channel that is not text based has no [send]. *)
Definition send (id : string) (ch : channel) (body : string)
    (embeds : list welcome_embed) : IO unit :=
  if negb (isTextBased ch) then io_throw TypeError else
  io_emit (Send id body embeds) ;;;
  if send_accepts ch then io_ret tt else io_throw DeliveryError.

(** [channel.messages.fetchPinned().catch(() => null)]. *)
Definition fetchPinned (id : string) (ch : channel) : IO (option (list pinned)) :=
  io_emit (FetchPinned id) ;;; io_ret (pins ch).

(** [msg.pin().catch(() => { console.log(notice) })]. *)
Definition pin (id : string) (ch : channel) (notice : string) : IO unit :=
  io_emit (Pin id) ;;;
  if pin_accepts ch then io_ret tt else io_emit (ConsoleLog notice).

(** *** A member joins *)

(** Milliseconds in a day: the account age in days is compared with 30
    and with 365, which on the difference in milliseconds is a comparison
    with 30 and 365 times this. *)
Definition day : Z := 1000 * 60 * 60 * 24.

Definition sendPersonalWelcomeDM (j : join) : IO unit :=
  let name :=
    if String.eqb (displayName (joined j)) "" then username (joined j)
    else displayName (joined j) in
  let age := Date_now j - createdAt (joined j) in
  let extraLine :=
    if age <? 30 * day then
      nl +:+ nl +:+ "If you’re new to Discord or the scene, no stress — ask questions anytime."
    else if 365 * day <? age then
      nl +:+ nl +:+ "Looks like you’ve been around for a minute — glad you found your way here."
    else "" in
  let dm :=
    unlines [ "Welcome **" +:+ name +:+ "** 🖤"; ""; PUBLIC_WELCOME_TEXT +:+ extraLine ] in
  io_catch
    (io_emit (MemberSend dm) ;;;
     if dm_accepts j then io_ret tt else io_throw DeliveryError)
    (io_ret tt).

Definition postWelcomeInWelcomeChannel (j : join) : IO unit :=
  match WELCOME_CHANNEL_ID with
  | None => io_ret tt
  | Some id =>
      if String.eqb id "" then io_ret tt else
      found <- fetch id (welcome_channel j) ;;
      match found with
      | None => io_ret tt
      | Some ch =>
          let embed :=
            WelcomeEmbed "Welcome to Clique Cabana 🖤" PUBLIC_WELCOME_TEXT
              (displayAvatarURL (joined j))
              "Respect the vibe. Support each other. Let the music move you."
              (stamp j) in
          send id ch ("Welcome " +:+ mention (joined j) +:+ " 🖤") [embed]
      end
  end.

(** The [guildMemberAdd] handler. *)
Definition guildMemberAdd (j : join) : IO unit :=
  postWelcomeInWelcomeChannel j ;;;
  sendPersonalWelcomeDM j.

(** *** The pinned messages *)

(** The text of the pinned message for the next event [next]. *)
Definition pinned_text (next : option (json * Z)) : string :=
  let fallback := "Clique Cabana Presents: In The Clouds" in
  let headline :=
    match next with
    | Some (e, _) =>
        if truthy (field e "title") then ToString (field e "title") else fallback
    | None => fallback
    end in
  let whenLine :=
    match next with
    | Some (e, _) =>
        let start := fromISO (field e "startISO") in
        toFormat start "ccc d LLL" +:+ " from " +:+ toFormat start "h:mm a"
          +:+ " to 10:00 PM"
    | None => ""
    end in
  let ticketLine :=
    match next with
    | Some (e, _) =>
        if truthy (field e "link") then "Ticket Link • " +:+ ToString (field e "link")
        else ""
    | None => ""
    end in
  unlines
    [ "**Clique Cabana • Upcoming Events**";
      "";
      "**" +:+ headline +:+ "**";
      whenLine;
      ticketLine;
      "";
      "Friday, February 21";
      "Justin Martin";
      "";
      "Friday, March 7";
      "Kyle Walker";
      "";
      "—";
      "**How to use this channel**";
      "• Use **/nextevent** to see the next upcoming event (private, just for you)";
      "• Use **/remindme** to get a DM reminder before events";
      "• Reminders post here **24 hours** before showtime";
      "";
      "No spam. No noise. Just what’s next.";
      "See you in the clouds 🖤";
      "";
      UPCOMING_EVENTS_PIN_MARKER ].

Definition buildUpcomingEventsPinnedText (now : Z) : M Embed string :=
  (events <- readEvents ;;
   next <- lift (getNextEvent events now) ;;
   ret (pinned_text next))%js.

Definition ensurePinnedUpcomingEventsMessage (s : startup) : IO unit :=
  if negb (configured EVENT_CHANNEL_ID) then
    io_emit (ConsoleLog "⚠️ EVENT_CHANNEL_ID not set — skipping upcoming-events pin.")
  else
  let id := default "" EVENT_CHANNEL_ID in
  found <- fetch id (event_channel s) ;;
  match found with
  | None => io_ret tt
  | Some ch =>
      if negb (isTextBased ch) then io_ret tt else
      pins <- fetchPinned id ch ;;
      if match pins with
         | Some ps => alreadyPinned (client_user_id s) UPCOMING_EVENTS_PIN_MARKER ps
         | None => false
         end
      then io_ret tt else
      msg <- quietly (buildUpcomingEventsPinnedText (start_now s)) ;;
      send id ch msg [] ;;;
      pin id ch
        "⚠️ Could not pin upcoming-events message (missing Manage Messages permission)."
  end.

(** [process.env.ANNOUNCEMENTS_CHANNEL_ID || "1458512486125797592"]. *)
Definition ANNOUNCEMENTS_CHANNEL_ID : string :=
  if configured ANNOUNCEMENTS_CHANNEL_ID_env
  then default "" ANNOUNCEMENTS_CHANNEL_ID_env
  else "1458512486125797592".

Definition ensurePinnedAnnouncement (s : startup) : IO unit :=
  if negb (configured (Some ANNOUNCEMENTS_CHANNEL_ID)) then io_ret tt else
  let id := ANNOUNCEMENTS_CHANNEL_ID in
  found <- fetch id (announcements_channel s) ;;
  match found with
  | None => io_ret tt
  | Some ch =>
      if negb (isTextBased ch) then io_ret tt else
      pins <- fetchPinned id ch ;;
      if match pins with
         | Some ps => alreadyPinned (client_user_id s) ANNOUNCEMENT_PIN_MARKER ps
         | None => false
         end
      then io_ret tt else
      send id ch FESTIVAL_ANNOUNCEMENT_TEXT [] ;;;
      pin id ch "⚠️ Could not pin announcement (missing Manage Messages permission)."
  end.

(** *** The start *)

Definition registerSlashCommands (s : startup) : IO unit :=
  if negb (configured GUILD_ID) then
    io_emit (ConsoleLog "⚠️ GUILD_ID not set — skipping slash command registration.")
  else
  let guild := default "" GUILD_ID in
  io_emit (RestPut guild commands) ;;;
  (if put_accepts s then io_ret tt else io_throw DeliveryError) ;;;
  io_emit (ConsoleLog ("✅ Slash commands registered for guild: " +:+ guild)).

(** The [clientReady] handler; [Schedule] is [cron.schedule] of the
    reminder check. *)
Definition clientReady (s : startup) : IO unit :=
  io_emit (ConsoleLog ("✅ Logged in as " +:+ client_user_tag s)) ;;;
  registerSlashCommands s ;;;
  ensurePinnedUpcomingEventsMessage s ;;;
  ensurePinnedAnnouncement s ;;;
  io_emit (Schedule "* * * * *") ;;;
  io_emit (ConsoleLog "✅ Reminder engine running (every minute).").

(** *** Reading a trace *)

Definition direct_messages (tr : list call) : list string :=
  omap (fun c => match c with MemberSend body => Some body | _ => None end) tr.

Definition sent (tr : list call) : list string :=
  omap (fun c => match c with Send _ body _ => Some body | _ => None end) tr.

Definition scheduled (tr : list call) : nat :=
  length (List.filter (fun c => match c with Schedule _ => true | _ => false end) tr).

Definition replies (tr : list (effect Embed)) : nat :=
  length (List.filter (fun x => match x with Reply _ _ => true | _ => false end) tr).
End Lifecycle.

(** ** More sample data *)

Module Cases.
(** A library whose embed builder rejects an image that is not a URL. *)
Definition strict : Library :=
  {| fromISO := Sample.parse;
     ToString := Sample.print;
     Embed := string;
     formatEventEmbed := fun e =>
       match field e "imageUrl" with
       | Some (JStr s) => if String.prefix "https://" s then Some "with image" else None
       | _ => Some "no image"
       end |}.

Definition poster : json :=
  JObj (list_to_map [("id", JStr "lee-foss"); ("title", JStr "Lee Foss");
                     ("startISO", JStr "2025-02-07T14:00");
                     ("imageUrl", JStr "poster.png")]).

Definition with_poster : mem :=
  Mem ∅ (Disk (Dir (Text (Json (Sample.optins ["ana"]))))
              (Text (Json (JObj {["events" := JArr [poster]]}))) true).

(** A catalog with a [null] entry, and a store that is [null]. *)
Definition with_null : mem :=
  Mem ∅ (Disk (Dir (Text (Json (Sample.optins ["ana"]))))
              (Text (Json (JObj {["events" := JArr [Sample.lee_foss; JNull]]}))) true).

Definition null_store : mem :=
  Mem ∅ (Disk (Dir (Text (Json JNull))) (Text (Json Sample.catalog)) true).

(** An embed builder that differs from the one of [Sample.lib]: it names
    the link. *)
Definition older_embed (e : json) : option string :=
  match field e "title" with
  | Some (JStr s) => Some (s +:+ " (Link)")
  | _ => Some "Clique Cabana Event (Link)"
  end.

(** A disk without a data directory that refuses to create one. *)
Definition locked : mem := Mem ∅ (Disk NoDir Missing false).

(** The command [name], sent by cy a day before Lee Foss. *)
Definition ask (name : string) : interaction :=
  Interaction true name "cy" (Sample.T - 24 * 60 * Sample.minute) true.

Definition calendar : Calendar := {| toFormat := fun _ fmt => fmt |}.

(** The pinned text for Lee Foss as the next event. *)
Definition lee_foss_text : string :=
  @pinned_text Sample.lib calendar (Some (Sample.lee_foss, Sample.T)).

(** A start of the bot [bot] that finds the events channel, text based
    and with the pins [ps], a day before Lee Foss. *)
Definition boot (ps : list pinned) : startup :=
  Startup "bot" "bot#0001" true (Some (Channel true (Some ps) true true)) None
          (Sample.T - 24 * 60 * Sample.minute).
End Cases.

(** * Properties *)

Section Properties.
Context `{Library} `{Env}.

Local Abbreviation M := (M Embed).
Local Abbreviation trace := (list (effect Embed)).

(** ** The handler monad *)

Lemma bind_ok {A B} (c : M A) (k : A -> M B) m a m1 t1 :
  c m = (Ok a, m1, t1) ->
  bind c k m = (let '(r, m2, t2) := k a m1 in (r, m2, t1 ++ t2)).
Proof. intros Hc. unfold bind. rewrite Hc. by destruct (k a m1) as [[r m2] t2]. Qed.

Lemma bind_pure {A B} (c : M A) (k : A -> M B) m a :
  c m = (Ok a, m, []) -> bind c k m = k a m.
Proof. intros Hc. rewrite (bind_ok _ _ _ _ _ _ Hc). by destruct (k a m) as [[r m2] t2]. Qed.

Lemma bind_throw {A B} (c : M A) (k : A -> M B) m e m1 t1 :
  c m = (Throw e, m1, t1) -> bind c k m = (Throw e, m1, t1).
Proof. intros Hc. unfold bind. by rewrite Hc. Qed.

(** ** Counting in traces *)

Lemma announcements_app key (t1 t2 : trace) :
  announcements key (t1 ++ t2) = (announcements key t1 + announcements key t2)%nat.
Proof. unfold announcements. by rewrite List.filter_app, length_app. Qed.

Lemma attempted_app key (t1 t2 : trace) :
  attempted key (t1 ++ t2) = attempted key t1 ++ attempted key t2.
Proof. apply omap_app. Qed.

Lemma messaged_app key (t1 t2 : trace) :
  messaged key (t1 ++ t2) = messaged key t1 ++ messaged key t2.
Proof. apply omap_app. Qed.

Lemma logged_app (t1 t2 : trace) : logged (t1 ++ t2) = logged t1 ++ logged t2.
Proof. apply omap_app. Qed.

Lemma announcements_cons key x (tr : trace) :
  announcements key (x :: tr) =
  ((if is_announcement key x then 1 else 0) + announcements key tr)%nat.
Proof. unfold announcements. simpl. by destruct (is_announcement key x). Qed.

Lemma attempted_cons key x (tr : trace) :
  attempted key (x :: tr) =
  match x with
  | UserFetch k u => if String.eqb k key then u :: attempted key tr else attempted key tr
  | _ => attempted key tr
  end.
Proof. destruct x; try done. unfold attempted. simpl. by destruct (String.eqb key0 key). Qed.

Lemma messaged_cons key x (tr : trace) :
  messaged key (x :: tr) =
  match x with
  | UserSend k u => if String.eqb k key then u :: messaged key tr else messaged key tr
  | _ => messaged key tr
  end.
Proof. destruct x; try done. unfold messaged. simpl. by destruct (String.eqb key0 key). Qed.

Lemma logged_cons x (tr : trace) :
  logged (x :: tr) =
  match x with
  | Log line => line :: logged tr
  | _ => logged tr
  end.
Proof. by destruct x. Qed.

(** ** Files *)

Lemma readEvents_eq (m : mem) :
  readEvents (E := Embed) m = (Ok (catalog_events (events_json (fs m))), m, []).
Proof.
  destruct m as [s [dd ev w]].
  destruct ev as [|[|d]]; [done..|].
  by destruct d.
Qed.

(** ** Computations that only touch the disk *)

Lemma quiet_ret {A} (a : A) : quiet (ret a).
Proof. intros [s d]. by exists (Ok a), d. Qed.

Lemma quiet_throw {A} (e : exn) : quiet (throw (A := A) e).
Proof. intros [s d]. by exists (Throw e), d. Qed.

Lemma quiet_lift {A} (r : result A) : quiet (lift r).
Proof. intros [s d]. by exists r, d. Qed.

Lemma quiet_bind {A B} (c : M A) (k : A -> M B) :
  quiet c -> (forall a, quiet (k a)) -> quiet (bind c k).
Proof.
  intros Hc Hk m. destruct (Hc m) as (r & d & Hr). destruct r as [a|x].
  - rewrite (bind_ok _ _ _ _ _ _ Hr).
    destruct (Hk a (Mem (reminderState m) d)) as (r' & d' & Hr').
    rewrite Hr'. simpl. eauto.
  - rewrite (bind_throw _ _ _ _ _ _ Hr). eauto.
Qed.

Lemma quiet_try_catch {A} (c h : M A) :
  quiet c -> quiet h -> quiet (try_catch c h).
Proof.
  intros Hc Hh m. unfold try_catch. destruct (Hc m) as (r & d & Hr). rewrite Hr.
  destruct r as [a|x]; [eauto|].
  destruct (Hh (Mem (reminderState m) d)) as (r' & d' & Hr').
  rewrite Hr'. simpl. eauto.
Qed.

Lemma quiet_if {A} (b : bool) (c1 c2 : M A) :
  quiet c1 -> quiet c2 -> quiet (if b then c1 else c2).
Proof. by destruct b. Qed.

Lemma quiet_get_fs : quiet get_fs.
Proof. intros [s d]. by exists (Ok d), d. Qed.

Lemma quiet_put_fs d : quiet (put_fs d).
Proof. intros [s d0]. by exists (Ok tt), d. Qed.

Create HintDb quiet.
Hint Resolve quiet_ret quiet_throw quiet_lift quiet_bind quiet_try_catch
  quiet_if quiet_get_fs quiet_put_fs : quiet.

Lemma quiet_existsSync p : quiet (existsSync p).
Proof. unfold existsSync. auto with quiet. Qed.

Lemma quiet_mkdirSync : quiet mkdirSync_DATA_DIR.
Proof.
  unfold mkdirSync_DATA_DIR. apply quiet_bind; [auto with quiet|].
  intros d. destruct (data d); auto with quiet.
Qed.

Lemma quiet_readFileSync p : quiet (readFileSync p).
Proof.
  unfold readFileSync. apply quiet_bind; [auto with quiet|].
  intros d. destruct p; [auto with quiet| |].
  - destruct (data d) as [|[|t]]; auto with quiet.
  - destruct (events_json d); auto with quiet.
Qed.

Lemma quiet_writeFileSync p t : quiet (writeFileSync p t).
Proof.
  unfold writeFileSync. apply quiet_bind; [auto with quiet|].
  intros d. apply quiet_if; [auto with quiet|].
  destruct p; [auto with quiet| |auto with quiet].
  destruct (data d); auto with quiet.
Qed.

Hint Resolve quiet_existsSync quiet_mkdirSync quiet_readFileSync
  quiet_writeFileSync : quiet.

Lemma quiet_ensureDataFiles : quiet ensureDataFiles.
Proof. unfold ensureDataFiles. auto 10 with quiet. Qed.

Hint Resolve quiet_ensureDataFiles : quiet.

Lemma quiet_readOptins : quiet readOptins.
Proof. unfold readOptins. auto 10 with quiet. Qed.

Lemma quiet_writeOptins doc : quiet (writeOptins doc).
Proof. unfold writeOptins. auto 10 with quiet. Qed.

Hint Resolve quiet_readOptins quiet_writeOptins : quiet.

Lemma quiet_listOptedIn : quiet listOptedIn.
Proof. unfold listOptedIn. auto 10 with quiet. Qed.

Lemma quiet_remindme uid : quiet (remindme uid).
Proof. unfold remindme. auto 10 with quiet. Qed.

Lemma quiet_remindoff uid : quiet (remindoff uid).
Proof. unfold remindoff. auto 10 with quiet. Qed.

Lemma quiet_readEvents : quiet readEvents.
Proof. intros m. rewrite readEvents_eq. destruct m. eauto. Qed.

(** ** Traces and reminders *)

Lemma silent_nil key : silent_for key ([] : trace).
Proof. apply Forall_nil_2. Qed.

Lemma silent_app key (t1 t2 : trace) :
  silent_for key t1 -> silent_for key t2 -> silent_for key (t1 ++ t2).
Proof. intros H1 H2. by apply Forall_app. Qed.

Lemma silent_announcements key (tr : trace) :
  silent_for key tr -> announcements key tr = 0%nat.
Proof.
  induction 1 as [|x tr Hx _ IH]; [done|].
  rewrite announcements_cons, IH. destruct x; try done. simpl in *.
  destruct (String.eqb_spec key0 key) as [->|]; done.
Qed.

Lemma silent_attempted key (tr : trace) :
  silent_for key tr -> attempted key tr = [].
Proof.
  induction 1 as [|x tr Hx _ IH]; [done|].
  rewrite attempted_cons, IH. destruct x; try done. simpl in *.
  destruct (String.eqb_spec key0 key) as [->|]; done.
Qed.

Lemma silent_messaged key (tr : trace) :
  silent_for key tr -> messaged key tr = [].
Proof.
  induction 1 as [|x tr Hx _ IH]; [done|].
  rewrite messaged_cons, IH. destruct x; try done. simpl in *.
  destruct (String.eqb_spec key0 key) as [->|]; done.
Qed.

(** A trace whose calls all belong to one reminder does nothing for the
    others. *)
Lemma tagged_silent key k (tr : trace) :
  Forall (fun x => tag x = Some key) tr -> k <> key -> silent_for k tr.
Proof.
  intros Htr Hne. eapply Forall_impl; [exact Htr|].
  simpl. intros x -> [= ->]. done.
Qed.

(** ** The loop over the opt-ins *)

Lemma dm_loop_spec t key ids : forall i m,
  exists tr, dm_loop t key i ids m = (Ok tt, m, tr) /\
    attempted key tr = ids /\
    messaged key tr = found_from t i ids /\
    (forall k, announcements k tr = 0%nat) /\
    logged tr = [] /\
    Forall (fun x => tag x = Some key) tr.
Proof.
  induction ids as [|u rest IH]; intros i m.
  - by exists [].
  - destruct (IH (S i) m) as (tr & Hrun & Hatt & Hmsg & Hann & Hlog & Htag).
    simpl dm_loop. unfold fetch_user, user_send, try_catch, bind, emit, ret, throw.
    simpl found_from.
    destruct (user_found t i u), (user_accepts t i u); simpl; rewrite Hrun;
      eexists; (split; [reflexivity|]);
      rewrite ?attempted_cons, ?messaged_cons, ?logged_cons, ?String.eqb_refl,
        ?Hatt, ?Hmsg, ?Hlog;
      (split; [done|]); (split; [done|]); (split; [|split; [done|]]);
      [intros k; by rewrite ?announcements_cons, Hann | by repeat constructor ..].
Qed.

(** ** The delivery and the tick, as equations *)

Lemma deliver_eq t e key w m :
  deliver t e key w m =
  match formatEventEmbed e with
  | None => (Throw ValidationError, m, [])
  | Some embed =>
      if channel_accepts t key then
        match listOptedIn m with
        | (Ok ids, m1, _) =>
            match dm_loop t key 0 ids m1 with
            | (r, m2, tr) => (r, m2, ChannelSend key (message w) embed :: tr)
            end
        | (Throw x, m1, _) => (Throw x, m1, [ChannelSend key (message w) embed])
        end
      else (Throw DeliveryError, m, [ChannelSend key (message w) embed])
  end.
Proof.
  unfold deliver. destruct (formatEventEmbed e) as [embed|]; [|done].
  unfold channel_send, bind at 1 2, emit, ret, throw.
  destruct (channel_accepts t key); [|done]. simpl.
  destruct (quiet_listOptedIn m) as (r & d & Hr).
  destruct r as [ids|x].
  - rewrite (bind_ok _ _ _ _ _ _ Hr), Hr. simpl.
    by destruct (dm_loop t key 0 ids _) as [[r m2] tr].
  - by rewrite (bind_throw _ _ _ _ _ _ Hr), Hr.
Qed.

Lemma runReminderCheck_eq t m :
  runReminderCheck t m =
  match selected t m with
  | Throw x => (Throw x, m, [])
  | Ok None => (Ok tt, m, [])
  | Ok (Some (e, _)) =>
      if negb (configured EVENT_CHANNEL_ID) then (Ok tt, m, [])
      else if negb (channel_found t) then (Ok tt, m, [ChannelFetch])
      else
        let key := key_of e window_24h in
        if due t e window_24h && negb (hasFired m key) then
          match deliver t e key window_24h
                  (Mem ({[key]} ∪ reminderState m) (fs m)) with
          | (r, m', tr) => (r, m', ChannelFetch :: tr)
          end
        else (Ok tt, m, [ChannelFetch])
  end.
Proof.
  unfold runReminderCheck, selected.
  rewrite (bind_pure _ _ _ _ (readEvents_eq m)).
  unfold bind at 1, lift.
  destruct (getNextEvent _ _) as [[[e dt]|]|x]; [|done..].
  destruct (configured EVENT_CHANNEL_ID); [|done]. simpl negb. cbv iota.
  unfold fetch_channel, bind at 1 2, emit, ret.
  destruct (channel_found t); [|done]. simpl.
  unfold due, hasFired, bind at 1, reminderState_has.
  destruct (shouldTrigger _ _ && negb _); [|done].
  unfold bind, reminderState_add. simpl.
  by destruct (deliver _ _ _ _ _) as [[r m'] tr].
Qed.

(** ** What a tick can do *)

Lemma mem_eta (m : mem) : Mem (reminderState m) (fs m) = m.
Proof. by destruct m. Qed.

Lemma is_announcement_same key c (emb : Embed) :
  is_announcement key (ChannelSend key c emb) = true.
Proof. apply String.eqb_refl. Qed.

(** The delivery leaves the markers alone, writes nothing on the console,
    makes calls for its own reminder only and at most one announcement. *)
Lemma deliver_summary t e key w m :
  exists r d tr, deliver t e key w m = (r, Mem (reminderState m) d, tr) /\
    Forall (fun x => tag x = Some key) tr /\
    (announcements key tr <= 1)%nat /\
    logged tr = [].
Proof.
  rewrite deliver_eq.
  destruct (formatEventEmbed e) as [embed|].
  2: { exists (Throw ValidationError), (fs m), []. rewrite mem_eta.
       split; [done|]. split; [done|]. split; [|done].
       unfold announcements. simpl. lia. }
  destruct (channel_accepts t key).
  2: { exists (Throw DeliveryError), (fs m), [ChannelSend key (message w) embed].
       rewrite mem_eta. split; [done|]. split; [by repeat constructor|].
       split; [|done]. by rewrite announcements_cons, is_announcement_same. }
  destruct (quiet_listOptedIn m) as (r & d & ->).
  destruct r as [ids|x].
  - destruct (dm_loop_spec t key ids 0%nat (Mem (reminderState m) d))
      as (tr & -> & _ & _ & Hann & Hlog & Htag).
    exists (Ok tt), d, (ChannelSend key (message w) embed :: tr).
    split; [done|]. split; [by constructor|]. split; [|by rewrite logged_cons].
    by rewrite announcements_cons, is_announcement_same, Hann.
  - exists (Throw x), d, [ChannelSend key (message w) embed].
    split; [done|]. split; [by repeat constructor|]. split; [|done].
    by rewrite announcements_cons, is_announcement_same.
Qed.

(** A tick either leaves the memory as it is and does nothing for any
    reminder, or it reaches the window check with the window open on a
    pending reminder, marks that reminder, and makes calls for that one
    only, with at most one announcement. Either way it writes nothing on
    the console. *)
Lemma tick_cases t m :
  exists r m' tr, runReminderCheck t m = (r, m', tr) /\
    logged tr = [] /\
    ((m' = m /\ (forall k, silent_for k tr)) \/
     (exists e, let key := key_of e window_24h in
        reaches t m e /\ due t e window_24h = true /\ hasFired m key = false /\
        reminderState m' = {[key]} ∪ reminderState m /\
        (forall k, k <> key -> silent_for k tr) /\
        (announcements key tr <= 1)%nat)).
Proof.
  assert (Hquiet : forall (r : result unit) (tr : trace),
    logged tr = [] -> (forall k, silent_for k tr) ->
    exists r' m' tr', (r, m, tr) = (r', m', tr') /\ logged tr' = [] /\
      ((m' = m /\ (forall k, silent_for k tr')) \/
       (exists e, let key := key_of e window_24h in
          reaches t m e /\ due t e window_24h = true /\ hasFired m key = false /\
          reminderState m' = {[key]} ∪ reminderState m /\
          (forall k, k <> key -> silent_for k tr') /\
          (announcements key tr' <= 1)%nat))).
  { intros r tr Hlog Hsilent. exists r, m, tr. auto. }
  assert (Hnil : forall k, silent_for k ([] : trace)) by (intros k; apply silent_nil).
  assert (Hfetch : forall k, silent_for k ([ChannelFetch] : trace))
    by (intros k; by repeat constructor).
  rewrite runReminderCheck_eq.
  destruct (selected t m) as [[[e dt]|]|x] eqn:Hsel; [|by apply Hquiet..].
  destruct (configured EVENT_CHANNEL_ID) eqn:Hconf; simpl; [|by apply Hquiet].
  destruct (channel_found t) eqn:Hchan; simpl; [|by apply Hquiet].
  destruct (due t e window_24h) eqn:Hdue; simpl; [|by apply Hquiet].
  destruct (hasFired m (key_of e window_24h)) eqn:Hfired; simpl; [by apply Hquiet|].
  clear Hquiet.
  destruct (deliver_summary t e (key_of e window_24h) window_24h
              (Mem ({[key_of e window_24h]} ∪ reminderState m) (fs m)))
    as (r & d & tr & -> & Htag & Hkey & Hlog).
  eexists _, _, _. split; [done|]. split; [by rewrite logged_cons|].
  right. exists e. simpl. unfold reaches. rewrite Hsel.
  split; [eauto|]. split; [done|]. split; [done|]. split; [done|]. split.
  - intros k Hk. apply Forall_cons. split; [done|]. by apply (tagged_silent _ _ _ Htag).
  - by rewrite announcements_cons.
Qed.

(** ** Commands leave the markers alone *)

Lemma quiet_calm {A} (c : M A) : quiet c -> calm c.
Proof.
  intros Hc m. destruct (Hc m) as (r & d & ->). exists r, d, [].
  split; [done|]. intros k. apply silent_nil.
Qed.

Lemma calm_bind {A B} (c : M A) (k : A -> M B) :
  calm c -> (forall a, calm (k a)) -> calm (bind c k).
Proof.
  intros Hc Hk m. destruct (Hc m) as (r & d & tr & Hr & Hsilent).
  destruct r as [a|x].
  - rewrite (bind_ok _ _ _ _ _ _ Hr).
    destruct (Hk a (Mem (reminderState m) d)) as (r' & d' & tr' & -> & Hsilent').
    exists r', d', (tr ++ tr'). split; [done|].
    intros key. by apply silent_app.
  - rewrite (bind_throw _ _ _ _ _ _ Hr). eauto.
Qed.

Lemma calm_if {A} (b : bool) (c1 c2 : M A) :
  calm c1 -> calm c2 -> calm (if b then c1 else c2).
Proof. by destruct b. Qed.

Lemma calm_reply i content embed : calm (reply i content embed).
Proof.
  intros [s d]. unfold reply, bind, emit, ret, throw.
  destruct (reply_accepts i); simpl;
    eexists _, d, _; (split; [reflexivity|]); intros k; by repeat constructor.
Qed.

Lemma calm_interactionCreate i : calm (interactionCreate i).
Proof.
  unfold interactionCreate.
  apply calm_if; [apply quiet_calm, quiet_ret|].
  apply calm_bind; [apply quiet_calm, quiet_readEvents|]. intros events.
  apply calm_bind; [apply quiet_calm, quiet_lift|]. intros next.
  repeat apply calm_if.
  - destruct next as [[e dt]|]; [|apply calm_reply].
    destruct (formatEventEmbed e); [apply calm_reply|apply quiet_calm, quiet_throw].
  - apply calm_bind; [apply quiet_calm, quiet_remindme|]. intros _. apply calm_reply.
  - apply calm_bind; [apply quiet_calm, quiet_remindoff|]. intros _. apply calm_reply.
  - apply quiet_calm, quiet_ret.
Qed.

(** ** What one event of the process can do *)

Lemma handle_cases ev m :
  exists r m' tr, handle ev m = (r, m', tr) /\
    ((reminderState m' = reminderState m /\ (forall k, silent_for k tr)) \/
     (exists t e, let key := key_of e window_24h in
        ev = OnTick t /\
        reaches t m e /\ due t e window_24h = true /\ hasFired m key = false /\
        reminderState m' = {[key]} ∪ reminderState m /\
        (forall k, k <> key -> silent_for k tr) /\
        (announcements key tr <= 1)%nat)).
Proof.
  destruct ev as [t|i|d]; simpl.
  - destruct (tick_cases t m) as (r & m' & tr & -> & _ & [[-> Hsilent]|(e & He)]).
    + eexists _, _, _. split; [done|]. by left.
    + eexists _, _, _. split; [done|]. right. exists t, e. simpl in *. tauto.
  - destruct (calm_interactionCreate i m) as (r & d' & tr & -> & Hsilent).
    eexists _, _, _. split; [done|]. by left.
  - eexists _, _, _. split; [done|]. left. split; [done|]. intros k. apply silent_nil.
Qed.

Lemma elem_of_hasFired m key : hasFired m key = true <-> key ∈ reminderState m.
Proof. unfold hasFired. by rewrite bool_decide_eq_true. Qed.

Lemma handle_keeps_fired ev m key :
  hasFired m key = true -> hasFired (handle ev m).1.2 key = true.
Proof.
  rewrite !elem_of_hasFired.
  destruct (handle_cases ev m) as (r & m' & tr & -> & [[Hsame _]|(t & e & He)]); simpl.
  - by rewrite Hsame.
  - destruct He as (_ & _ & _ & _ & Hset & _). rewrite Hset.
    intros Hin. apply elem_of_union. by right.
Qed.

Lemma handle_fired_silent ev m key :
  hasFired m key = true -> silent_for key (handle ev m).2.
Proof.
  intros Hfired.
  destruct (handle_cases ev m) as (r & m' & tr & -> & [[_ Hsilent]|(t & e & He)]); simpl.
  - apply Hsilent.
  - destruct He as (_ & _ & _ & Hpending & _ & Hother & _).
    apply Hother. intros ->. congruence.
Qed.

Lemma run_cons ev evs m :
  run (ev :: evs) m =
  ((run evs (handle ev m).1.2).1, (handle ev m).2 ++ (run evs (handle ev m).1.2).2).
Proof.
  simpl. destruct (handle ev m) as [[r m1] t1]. simpl.
  by destruct (run evs m1) as [m2 t2].
Qed.

Lemma run_keeps_fired evs : forall m key,
  hasFired m key = true -> hasFired (run evs m).1 key = true.
Proof.
  induction evs as [|ev evs IH]; intros m key Hfired; [done|].
  rewrite run_cons. simpl. by apply IH, handle_keeps_fired.
Qed.

(** Once a reminder is fired, nothing the process goes through does
    anything for it. *)
Lemma run_fired_silent evs : forall m key,
  hasFired m key = true -> silent_for key (run evs m).2.
Proof.
  induction evs as [|ev evs IH]; intros m key Hfired; [apply silent_nil|].
  rewrite run_cons. simpl. apply silent_app.
  - by apply handle_fired_silent.
  - by apply IH, handle_keeps_fired.
Qed.

Lemma run_at_most_once evs : forall m key,
  (announcements key (run evs m).2 <= 1)%nat.
Proof.
  induction evs as [|ev evs IH]; intros m key; [simpl; unfold announcements; simpl; lia|].
  rewrite run_cons. simpl. rewrite announcements_app.
  destruct (handle_cases ev m) as (r & m' & tr & Hrun & [[_ Hsilent]|(t & e & He)]);
    rewrite Hrun; simpl.
  - rewrite (silent_announcements _ _ (Hsilent key)). apply IH.
  - destruct He as (_ & _ & _ & _ & Hset & Hother & Hkey).
    destruct (decide (key = key_of e window_24h)) as [->|Hne].
    + rewrite (silent_announcements _ (run evs m').2); [lia|].
      apply run_fired_silent, elem_of_hasFired. rewrite Hset.
      apply elem_of_union. left. by apply elem_of_singleton.
    + rewrite (silent_announcements _ _ (Hother key Hne)). apply IH.
Qed.

(** A tick that announces the reminder [key] found it pending and leaves
    it fired. *)
Lemma announcing_tick t m key :
  (0 < announcements key (runReminderCheck t m).2)%nat ->
  hasFired m key = false /\ hasFired (runReminderCheck t m).1.2 key = true.
Proof.
  destruct (tick_cases t m) as (r & m' & tr & -> & _ & [[_ Hsilent]|(e & He)]); simpl.
  - rewrite (silent_announcements _ _ (Hsilent key)). lia.
  - destruct He as (_ & _ & Hpending & Hset & Hother & _). intros Hpos.
    destruct (decide (key = key_of e window_24h)) as [->|Hne].
    + split; [done|]. apply elem_of_hasFired. rewrite Hset.
      apply elem_of_union. left. by apply elem_of_singleton.
    + rewrite (silent_announcements _ _ (Hother key Hne)) in Hpos. lia.
Qed.

(** ** The claims about the fired markers *)

(** C1. For every event and threshold, over any sequence of ticks,
    commands and edits of the files that a process goes through from any
    memory, the reminder of that pair is announced at most once; once the
    pair is marked fired nothing is done for it again, no announcement
    and no direct message; and a tick that announces it found [hasFired]
    false and leaves it true, after which no later sequence does anything
    for it. *)
Theorem reminder_dispatched_at_most_once
    (evs : list event) (m : mem) (e : json) (w : window) :
  let key := key_of e w in
  (announcements key (run evs m).2 <= 1)%nat /\
  (hasFired m key = true ->
     silent_for key (run evs m).2 /\
     announcements key (run evs m).2 = 0%nat /\
     attempted key (run evs m).2 = []) /\
  (forall t, (0 < announcements key (runReminderCheck t m).2)%nat ->
     hasFired m key = false /\
     hasFired (runReminderCheck t m).1.2 key = true /\
     forall later,
       announcements key (run later (runReminderCheck t m).1.2).2 = 0%nat /\
       attempted key (run later (runReminderCheck t m).1.2).2 = []).
Proof.
  intros key. split; [apply run_at_most_once|]. split.
  - intros Hfired. pose proof (run_fired_silent evs m key Hfired) as Hsilent.
    split; [done|]. split; [by apply silent_announcements|by apply silent_attempted].
  - intros t Hpos. destruct (announcing_tick t m key Hpos) as [Hbefore Hafter].
    split; [done|]. split; [done|]. intros later.
    pose proof (run_fired_silent later _ key Hafter) as Hsilent.
    split; [by apply silent_announcements|by apply silent_attempted].
Qed.

(** C4. A reminder is either pending or fired ([hasFired] is a boolean).
    Whatever the process handles, a fired reminder stays fired; a pending
    one becomes fired only in a tick that reached the window check with
    the tolerance-window predicate true for the event of that reminder;
    and over any sequence of events a fired reminder is still fired at
    the end: the set of markers only grows. *)
Theorem fired_marker_monotone (ev : event) (m : mem) (key : string) :
  (hasFired m key = true -> hasFired (handle ev m).1.2 key = true) /\
  (hasFired m key = false -> hasFired (handle ev m).1.2 key = true ->
     exists t e, ev = OnTick t /\ key = key_of e window_24h /\
       reaches t m e /\ due t e window_24h = true) /\
  (forall evs, hasFired m key = true -> hasFired (run evs m).1 key = true) /\
  (forall evs, reminderState m ⊆ reminderState (run evs m).1).
Proof.
  split; [apply handle_keeps_fired|]. split.
  - destruct (handle_cases ev m) as (r & m' & tr & -> & [[Hsame _]|(t & e & He)]); simpl.
    + unfold hasFired. rewrite Hsame. congruence.
    + destruct He as (-> & Hreach & Hdue & _ & Hset & _).
      intros Hpending Hfired. exists t, e.
      split; [done|]. split; [|done].
      apply elem_of_hasFired in Hfired. rewrite Hset in Hfired.
      apply elem_of_union in Hfired as [Hin|Hin].
      * by apply elem_of_singleton in Hin.
      * apply elem_of_hasFired in Hin. congruence.
  - split; [intros evs; apply run_keeps_fired|].
    intros evs k Hin. apply elem_of_hasFired, run_keeps_fired.
    by apply elem_of_hasFired.
Qed.

(** ** The next event *)

Lemma prop_field e k : e <> JNull -> prop e k = Ok (field e k).
Proof. by destruct e. Qed.

Lemma map_dt_events events :
  Forall (fun e => e <> JNull) events ->
  map_dt events = Ok ((fun e => (e, fromISO (field e "startISO"))) <$> events).
Proof.
  induction 1 as [|e rest He _ IH]; [done|].
  simpl. by rewrite prop_field, IH.
Qed.

Lemma map_dt_null events :
  JNull ∈ events -> map_dt events = Throw TypeError.
Proof.
  induction events as [|e rest IH]; intros Hin; [by apply elem_of_nil in Hin|].
  apply elem_of_cons in Hin as [<-|Hin]; [done|].
  simpl. rewrite IH by done. by destruct e.
Qed.

(** A [null] entry of the catalog makes [getNextEvent] raise: the entry
    has no property to read. *)
Lemma getNextEvent_null events now :
  JNull ∈ events -> getNextEvent events now = Throw TypeError.
Proof. intros Hin. unfold getNextEvent. by rewrite map_dt_null. Qed.

Lemma head_insert_by_dt x l :
  head (insert_by_dt x l) =
  match l with
  | [] => Some x
  | y :: _ => if x.2 <=? y.2 then Some x else Some y
  end.
Proof. destruct l as [|y l]; [done|]. simpl. by destruct (x.2 <=? y.2). Qed.

Lemma sort_by_dt_nil l : sort_by_dt l = [] -> l = [].
Proof.
  destruct l as [|x l]; [done|]. simpl.
  intros Heq. apply (f_equal head) in Heq. rewrite head_insert_by_dt in Heq.
  destruct (sort_by_dt l) as [|y s]; [done|]. by destruct (x.2 <=? y.2).
Qed.

(** The head of the sorted list is the first of the earliest elements:
    everything before it in the list is strictly later, everything after
    it is not earlier. *)
Lemma head_sort_by_dt l x :
  head (sort_by_dt l) = Some x ->
  exists l1 l2, l = l1 ++ x :: l2 /\
    Forall (fun y => x.2 < y.2) l1 /\ Forall (fun y => x.2 <= y.2) l2.
Proof.
  revert x. induction l as [|a l IH]; intros x; [done|].
  simpl. rewrite head_insert_by_dt.
  destruct (sort_by_dt l) as [|y s] eqn:Hs.
  - intros [= <-]. apply sort_by_dt_nil in Hs as ->. by exists [], [].
  - destruct (IH y eq_refl) as (l1 & l2 & -> & Hl1 & Hl2).
    destruct (Z.leb_spec a.2 y.2) as [Hle|Hlt]; intros [= <-].
    + exists [], (l1 ++ y :: l2). split; [done|]. split; [done|].
      apply Forall_app. split; [|apply Forall_cons; split; [done|]].
      * eapply Forall_impl; [exact Hl1|]. simpl. lia.
      * eapply Forall_impl; [exact Hl2|]. simpl. lia.
    + exists (a :: l1), l2. split; [done|]. split; [|done].
      by apply Forall_cons.
Qed.

Lemma elem_of_upcoming now (mapped : list (json * option Z)) e t :
  (e, t) ∈ omap (upcoming_at now) mapped <-> (e, Some t) ∈ mapped /\ now < t.
Proof.
  rewrite list_elem_of_omap. split.
  - intros ([e' [t'|]] & Hin & Hup); unfold upcoming_at in Hup; simpl in Hup; [|done].
    destruct (Z.ltb_spec now t'); [|done]. by injection Hup as -> ->.
  - intros [Hin Hlt]. exists (e, Some t). split; [done|].
    unfold upcoming_at. simpl. by destruct (Z.ltb_spec now t); [|lia].
Qed.

(** C3. On a list of events (entries that are not [null]),
    [getNextEvent] returns without raising; the event it returns is in
    the list, its start parses to an instant strictly after now, and no
    event of the list with a parseable start strictly after now starts
    earlier; it returns none exactly when no event qualifies. An event
    whose start does not parse is never returned. *)
Theorem getNextEvent_earliest (events : list json) (now : Z) :
  Forall (fun e => e <> JNull) events ->
  exists next, getNextEvent events now = Ok next /\
    match next with
    | Some (e, t) =>
        e ∈ events /\ fromISO (field e "startISO") = Some t /\ now < t /\
        forall e' t', e' ∈ events -> fromISO (field e' "startISO") = Some t' ->
          now < t' -> t <= t'
    | None =>
        forall e' t', e' ∈ events -> fromISO (field e' "startISO") = Some t' ->
          t' <= now
    end.
Proof.
  intros Hevents. unfold getNextEvent. rewrite map_dt_events by done.
  set (mapped := (fun e => (e, fromISO (field e "startISO"))) <$> events).
  assert (Hmapped : forall e t, (e, Some t) ∈ mapped <->
            e ∈ events /\ fromISO (field e "startISO") = Some t).
  { intros e t. unfold mapped. rewrite list_elem_of_fmap. split.
    - intros (e' & [= -> Ht] & Hin). done.
    - intros [Hin Ht]. exists e. by rewrite Ht. }
  eexists. split; [done|].
  destruct (head (sort_by_dt (omap (upcoming_at now) mapped))) as [[e t]|] eqn:Hhead.
  - apply head_sort_by_dt in Hhead as (l1 & l2 & Hsplit & Hl1 & Hl2).
    assert (Hin : (e, t) ∈ omap (upcoming_at now) mapped).
    { rewrite Hsplit. apply elem_of_app. right. apply elem_of_cons. by left. }
    apply elem_of_upcoming in Hin as [Hin Hlt].
    apply Hmapped in Hin as [Hin Ht].
    split; [done|]. split; [done|]. split; [done|].
    intros e' t' Hin' Ht' Hlt'.
    assert (Hup : (e', t') ∈ omap (upcoming_at now) mapped).
    { apply elem_of_upcoming. split; [|done]. by apply Hmapped. }
    rewrite Hsplit in Hup. apply elem_of_app in Hup as [Hup|Hup].
    + rewrite Forall_forall in Hl1. specialize (Hl1 _ Hup). simpl in Hl1. lia.
    + apply elem_of_cons in Hup as [[= -> ->]|Hup]; [lia|].
      rewrite Forall_forall in Hl2. by specialize (Hl2 _ Hup).
  - intros e' t' Hin' Ht'.
    destruct (Z.le_gt_cases t' now) as [|Hlt]; [done|].
    assert (Hup : (e', t') ∈ omap (upcoming_at now) mapped).
    { apply elem_of_upcoming. split; [|lia]. by apply Hmapped. }
    apply head_None in Hhead. apply sort_by_dt_nil in Hhead.
    rewrite Hhead in Hup. by apply elem_of_nil in Hup.
Qed.

(** ** The catalog reader *)

(** C8. [readEvents] never raises and touches nothing: it returns the
    empty list when the catalog file is missing, when its text is not
    JSON, and when the document has no list under [events] (a document
    that is [null] included); it returns the list when there is one. And
    when it returns the empty list the tick is a no-op that ends
    normally. *)
Theorem readEvents_never_fails (m : mem) :
  exists events, readEvents (E := Embed) m = (Ok events, m, []) /\
    (events_json (fs m) = Missing -> events = []) /\
    (events_json (fs m) = Text Garbled -> events = []) /\
    (forall d, events_json (fs m) = Text (Json d) ->
       (forall items, prop d "events" <> Ok (Some (JArr items))) -> events = []) /\
    (forall d items, events_json (fs m) = Text (Json d) ->
       prop d "events" = Ok (Some (JArr items)) -> events = items) /\
    (events = [] -> forall t, runReminderCheck t m = (Ok tt, m, [])).
Proof.
  exists (catalog_events (events_json (fs m))).
  split; [apply readEvents_eq|].
  split; [by intros ->|]. split; [by intros ->|]. split; [|split].
  - intros d -> Hnone. destruct d as [| | | | |p]; try done. simpl in *.
    destruct (p !! "events") as [[]|]; try done. by destruct (Hnone items).
  - intros d items -> Hlist. destruct d as [| | | | |p]; try done. simpl in *.
    by injection Hlist as ->.
  - intros Hempty t. rewrite runReminderCheck_eq. unfold selected.
    by rewrite Hempty.
Qed.

(** ** The opt-in store *)

Lemma readOptins_stored m d :
  data (fs m) = Dir (Text (Json d)) -> readOptins (E := Embed) m = (Ok d, m, []).
Proof. destruct m as [s [dd ev w]]. simpl. by intros ->. Qed.

Lemma readOptins_garbled m :
  data (fs m) = Dir (Text Garbled) ->
  readOptins (E := Embed) m = (Ok empty_optins, m, []).
Proof. destruct m as [s [dd ev w]]. simpl. by intros ->. Qed.

(** The memory once the store has been created empty. *)
Lemma readOptins_missing m :
  data (fs m) = NoDir \/ data (fs m) = Dir Missing ->
  writable (fs m) = true ->
  readOptins (E := Embed) m =
    (Ok empty_optins,
     Mem (reminderState m)
       (Disk (Dir (Text (Json empty_optins))) (events_json (fs m)) true), []).
Proof. destruct m as [s [dd ev w]]. simpl. by intros [->| ->] ->. Qed.

(** What the source leaves uncaught: a store that is missing on a file
    system that refuses to create it. *)
Lemma readOptins_unwritable m :
  data (fs m) = NoDir \/ data (fs m) = Dir Missing ->
  writable (fs m) = false ->
  readOptins (E := Embed) m = (Throw FsError, m, []).
Proof. destruct m as [s [dd ev w]]. simpl. by intros [->| ->] ->. Qed.

Lemma listOptedIn_empty m m' :
  readOptins (E := Embed) m = (Ok empty_optins, m', []) ->
  listOptedIn m = (Ok [], m', []).
Proof.
  intros Hread. unfold listOptedIn. rewrite (bind_ok _ _ _ _ _ _ Hread).
  simpl. unfold bind, lift. simpl. by rewrite lookup_singleton_eq.
Qed.

(** C7, as the code has it. [readOptins] returns without raising
    whenever the store exists or the file system lets it be created.
    When the store is missing (no directory, or no file in it) and can be
    created, it is created with the empty list, that empty document is
    returned and the opt-in list read from it is empty; when its text is
    not JSON the result is the empty document, the list is empty and
    nothing is written; a stored document is returned as it is. When the
    store is missing and the file system refuses to create it, the
    failure of [ensureDataFiles], which runs outside the [try], reaches
    the caller: reading the store and listing the opt-ins both raise, and
    nothing has changed. *)
Theorem listOptedIn_degrades_to_empty (m : mem) :
  (writable (fs m) = true \/ (exists t, data (fs m) = Dir (Text t)) ->
     exists doc m', readOptins (E := Embed) m = (Ok doc, m', [])) /\
  (data (fs m) = NoDir \/ data (fs m) = Dir Missing -> writable (fs m) = true ->
     let m' := Mem (reminderState m)
                 (Disk (Dir (Text (Json empty_optins))) (events_json (fs m)) true) in
     readOptins (E := Embed) m = (Ok empty_optins, m', []) /\
     listOptedIn m = (Ok [], m', [])) /\
  (data (fs m) = Dir (Text Garbled) ->
     readOptins (E := Embed) m = (Ok empty_optins, m, []) /\
     listOptedIn m = (Ok [], m, [])) /\
  (forall d, data (fs m) = Dir (Text (Json d)) ->
     readOptins (E := Embed) m = (Ok d, m, [])) /\
  (data (fs m) = NoDir \/ data (fs m) = Dir Missing -> writable (fs m) = false ->
     readOptins (E := Embed) m = (Throw FsError, m, []) /\
     listOptedIn m = (Throw FsError, m, [])).
Proof.
  split; [|split; [|split; [|split]]].
  - intros Hcan.
    assert (Hmissing : data (fs m) = NoDir \/ data (fs m) = Dir Missing ->
              writable (fs m) = true).
    { destruct Hcan as [|[t Ht]]; [done|]. rewrite Ht. by intros [|]. }
    destruct (data (fs m)) as [|[|[|d]]] eqn:Hdata.
    + rewrite readOptins_missing; eauto.
    + rewrite readOptins_missing; eauto.
    + rewrite readOptins_garbled; eauto.
    + rewrite (readOptins_stored m d); eauto.
  - intros Hnone Hw. simpl.
    pose proof (readOptins_missing m Hnone Hw) as Hread.
    split; [done|]. by apply listOptedIn_empty.
  - intros Hgarbled. pose proof (readOptins_garbled m Hgarbled) as Hread.
    split; [done|]. by apply listOptedIn_empty.
  - apply readOptins_stored.
  - intros Hnone Hw. pose proof (readOptins_unwritable m Hnone Hw) as Hread.
    split; [done|]. unfold listOptedIn. by rewrite (bind_throw _ _ _ _ _ _ Hread).
Qed.

(** ** Opting in and out *)

Lemma same_value_str a b : same_value (JStr a) (JStr b) = bool_decide (a = b).
Proof.
  simpl. destruct (String.eqb_spec a b) as [->|Hne].
  - by rewrite bool_decide_eq_true_2.
  - by rewrite bool_decide_eq_false_2.
Qed.

Lemma Set_has_str u l : Set_has (JStr u) (JStr <$> l) = bool_decide (u ∈ l).
Proof.
  unfold Set_has. induction l as [|a l IH]; [done|].
  rewrite fmap_cons. cbn [existsb]. rewrite IH, same_value_str.
  destruct (decide (u = a)) as [->|Hne].
  - rewrite (bool_decide_eq_true_2 (a = a)) by done.
    rewrite (bool_decide_eq_true_2 (a ∈ a :: l)); [done|].
    apply elem_of_cons. by left.
  - rewrite (bool_decide_eq_false_2 (u = a)) by done. simpl.
    apply bool_decide_ext. rewrite elem_of_cons. naive_solver.
Qed.

Lemma Set_add_str u l : Set_add (JStr u) (JStr <$> l) = JStr <$> add_id u l.
Proof.
  unfold Set_add, add_id. rewrite Set_has_str.
  destruct (bool_decide (u ∈ l)); [done|]. by rewrite fmap_app.
Qed.

Lemma new_Set_str ids : new_Set (JStr <$> ids) = JStr <$> uniq ids.
Proof.
  unfold new_Set, uniq. change (@nil json) with (JStr <$> @nil string).
  generalize (@nil string) as acc.
  induction ids as [|x ids IH]; intros acc; [done|].
  rewrite fmap_cons. simpl. rewrite Set_add_str. apply IH.
Qed.

Lemma add_id_NoDup u l : NoDup l -> NoDup (add_id u l).
Proof.
  intros Hl. unfold add_id. case_bool_decide; [done|].
  apply NoDup_app. split; [done|]. split; [|apply NoDup_singleton].
  intros x Hx Hx'. apply list_elem_of_singleton in Hx' as ->. done.
Qed.

Lemma elem_of_add_id x u l : x ∈ add_id u l <-> x = u \/ x ∈ l.
Proof.
  unfold add_id. case_bool_decide.
  - naive_solver.
  - rewrite elem_of_app, list_elem_of_singleton. naive_solver.
Qed.

Lemma add_id_present u l : u ∈ l -> add_id u l = l.
Proof. intros Hin. unfold add_id. by rewrite bool_decide_eq_true_2. Qed.

Lemma fold_add_id_NoDup ids : forall acc,
  NoDup acc -> NoDup (fold_left (fun s x => add_id x s) ids acc).
Proof.
  induction ids as [|x ids IH]; intros acc Hacc; [done|].
  simpl. by apply IH, add_id_NoDup.
Qed.

Lemma elem_of_fold_add_id ids : forall acc x,
  x ∈ fold_left (fun s x => add_id x s) ids acc <-> x ∈ acc \/ x ∈ ids.
Proof.
  induction ids as [|y ids IH]; intros acc x; simpl.
  - rewrite elem_of_nil. naive_solver.
  - rewrite IH, elem_of_add_id, elem_of_cons. naive_solver.
Qed.

(** A list without duplicates goes through [new Set] and back unchanged. *)
Lemma fold_add_id_id ids : forall acc,
  NoDup (acc ++ ids) -> fold_left (fun s x => add_id x s) ids acc = acc ++ ids.
Proof.
  induction ids as [|y ids IH]; intros acc Hnd; simpl.
  - by rewrite app_nil_r.
  - assert (Hy : y ∉ acc).
    { apply NoDup_app in Hnd as (_ & Hdisj & _). intros Hin.
      apply (Hdisj y Hin). apply elem_of_cons. by left. }
    unfold add_id at 2. rewrite bool_decide_eq_false_2 by done.
    rewrite IH; [by rewrite <- app_assoc|]. by rewrite <- app_assoc.
Qed.

Lemma uniq_NoDup ids : NoDup (uniq ids).
Proof. apply fold_add_id_NoDup, NoDup_nil_2. Qed.

Lemma elem_of_uniq ids x : x ∈ uniq ids <-> x ∈ ids.
Proof. unfold uniq. rewrite elem_of_fold_add_id, elem_of_nil. naive_solver. Qed.

Lemma uniq_id ids : NoDup ids -> uniq ids = ids.
Proof. intros Hnd. unfold uniq. by rewrite fold_add_id_id. Qed.

Lemma filter_str uid ids :
  List.filter (fun id => strict_ne id uid) (JStr <$> ids) = JStr <$> remove_id uid ids.
Proof.
  unfold remove_id. induction ids as [|x ids IH]; [done|].
  rewrite fmap_cons. simpl. rewrite IH. unfold strict_ne. simpl.
  by destruct (String.eqb x uid).
Qed.

Lemma remove_id_absent uid ids : uid ∉ ids -> remove_id uid ids = ids.
Proof.
  unfold remove_id. induction ids as [|x ids IH]; intros Hnot; [done|].
  apply not_elem_of_cons in Hnot as [Hne Hnot]. simpl.
  destruct (String.eqb_spec x uid) as [->|_]; [done|]. simpl. by rewrite IH.
Qed.

Lemma remove_id_gone uid ids : uid ∉ remove_id uid ids.
Proof.
  unfold remove_id. induction ids as [|x ids IH]; simpl; [apply not_elem_of_nil|].
  destruct (String.eqb_spec x uid) as [->|Hne]; simpl; [done|].
  apply not_elem_of_cons. split; [congruence|done].
Qed.

Lemma writeOptins_stored m t doc :
  data (fs m) = Dir (Text t) -> writable (fs m) = true ->
  writeOptins (E := Embed) doc m =
    (Ok tt, Mem (reminderState m)
              (Disk (Dir (Text (Json doc))) (events_json (fs m)) (writable (fs m))), []).
Proof. destruct m as [s [dd ev w]]. simpl. by intros -> ->. Qed.

Lemma remindme_eq m p ids uid :
  holds (fs m) p ids -> writable (fs m) = true ->
  remindme uid m =
    (Ok tt, Mem (reminderState m) (rewritten (fs m) p (add_id uid (uniq ids))), []).
Proof.
  intros [Hdata Hp] Hw. unfold remindme.
  rewrite (bind_pure _ _ _ _ (readOptins_stored m _ Hdata)).
  unfold bind, lift. cbn [prop]. rewrite Hp.
  cbn -[new_Set Set_add writeOptins insert].
  rewrite new_Set_str, Set_add_str.
  by rewrite (writeOptins_stored m _ _ Hdata Hw).
Qed.

Lemma remindoff_eq m p ids uid :
  holds (fs m) p ids -> writable (fs m) = true ->
  remindoff uid m =
    (Ok tt, Mem (reminderState m) (rewritten (fs m) p (remove_id uid ids)), []).
Proof.
  intros [Hdata Hp] Hw. unfold remindoff.
  rewrite (bind_pure _ _ _ _ (readOptins_stored m _ Hdata)).
  unfold bind, lift. cbn [prop]. rewrite Hp.
  cbn -[List.filter writeOptins insert].
  rewrite filter_str.
  by rewrite (writeOptins_stored m _ _ Hdata Hw).
Qed.

Lemma rewritten_same m p ids :
  holds (fs m) p ids -> Mem (reminderState m) (rewritten (fs m) p ids) = m.
Proof.
  intros [Hdata Hp]. destruct m as [s [dd ev w]]. simpl in *. subst dd.
  unfold rewritten. simpl. by rewrite insert_id.
Qed.

Lemma holds_rewritten d p (ids' : list string) :
  holds (rewritten d p ids')
    (<["dmOptInUserIds" := JArr (JStr <$> ids')]> p) ids'.
Proof. split; [done|]. apply lookup_insert_eq. Qed.

Lemma rewritten_twice d p (ids ids' : list string) :
  rewritten (rewritten d p ids)
    (<["dmOptInUserIds" := JArr (JStr <$> ids)]> p) ids' = rewritten d p ids'.
Proof. unfold rewritten. simpl. by rewrite insert_insert_eq. Qed.

Lemma add_uniq_NoDup uid ids : NoDup (add_id uid (uniq ids)).
Proof. apply add_id_NoDup, uniq_NoDup. Qed.

Lemma elem_of_add_uniq uid ids x : x ∈ add_id uid (uniq ids) <-> x = uid \/ x ∈ ids.
Proof. by rewrite elem_of_add_id, elem_of_uniq. Qed.

Lemma add_uniq_fixed uid ids :
  NoDup ids -> uid ∈ ids -> add_id uid (uniq ids) = ids.
Proof. intros Hnd Hin. by rewrite uniq_id, add_id_present. Qed.

(** C5. On a store that lists user ids, with a disk that accepts the
    write: [remindme] ends normally and leaves a list without duplicates
    whose members are the user and the ids listed before; when the user
    was already listed in a list without duplicates the memory is left
    exactly as it was; a second [remindme] of the same user changes
    nothing. [remindoff] of a user who is not listed ends normally and
    leaves the memory exactly as it was; a second [remindoff] changes
    nothing. *)
Theorem opt_in_out_idempotent
    (m : mem) (p : gmap string json) (ids : list string) (uid : string) :
  holds (fs m) p ids -> writable (fs m) = true ->
  (exists ids', remindme uid m =
       (Ok tt, Mem (reminderState m) (rewritten (fs m) p ids'), []) /\
     NoDup ids' /\ (forall x, x ∈ ids' <-> x = uid \/ x ∈ ids)) /\
  (NoDup ids -> uid ∈ ids -> remindme uid m = (Ok tt, m, [])) /\
  (remindme uid ;;; remindme uid) m = remindme uid m /\
  (uid ∉ ids -> remindoff uid m = (Ok tt, m, [])) /\
  (remindoff uid ;;; remindoff uid) m = remindoff uid m.
Proof.
  intros Hholds Hw.
  pose proof (remindme_eq m p ids uid Hholds Hw) as Hin.
  pose proof (remindoff_eq m p ids uid Hholds Hw) as Hout.
  split; [|split; [|split; [|split]]].
  - exists (add_id uid (uniq ids)). split; [done|].
    split; [apply add_uniq_NoDup|]. intros x. apply elem_of_add_uniq.
  - intros Hnd Hmember. rewrite Hin, add_uniq_fixed by done.
    by rewrite rewritten_same.
  - rewrite (bind_ok _ _ _ _ _ _ Hin), Hin.
    set (ids1 := add_id uid (uniq ids)).
    rewrite (remindme_eq (Mem (reminderState m) (rewritten (fs m) p ids1)) _ ids1 uid
               (holds_rewritten (fs m) p ids1) Hw).
    simpl.
    rewrite add_uniq_fixed; [by rewrite rewritten_twice| |].
    + apply add_uniq_NoDup.
    + apply elem_of_add_uniq. by left.
  - intros Habsent. rewrite Hout, remove_id_absent by done.
    by rewrite rewritten_same.
  - rewrite (bind_ok _ _ _ _ _ _ Hout), Hout.
    set (ids1 := remove_id uid ids).
    rewrite (remindoff_eq (Mem (reminderState m) (rewritten (fs m) p ids1)) _ ids1 uid
               (holds_rewritten (fs m) p ids1) Hw).
    simpl.
    rewrite remove_id_absent by apply remove_id_gone.
    by rewrite rewritten_twice.
Qed.

(** ** The tolerance window *)

Lemma round_minutes_before T k late :
  0 <= late <= 30000 -> round_minutes (T - (T - k * 60000 + late)) = k.
Proof.
  intros Hlate. unfold round_minutes.
  replace (T - (T - k * 60000 + late) + 30000) with (k * 60000 + (30000 - late)) by lia.
  rewrite Z.div_add_l by lia. rewrite Z.div_small by lia. lia.
Qed.

Lemma due_iff t e w T :
  fromISO (field e "startISO") = Some T ->
  due t e w = true <-> Z.abs (round_minutes (T - now_check t) - minutes w) <= 1.
Proof. intros HT. unfold due. rewrite HT. simpl. apply Z.leb_le. Qed.

(** In milliseconds: the window of a threshold is open from a minute and
    a half before it (included) to a minute and a half after it
    (excluded). *)
Lemma due_interval t e w T :
  fromISO (field e "startISO") = Some T ->
  due t e w = true <->
  (minutes w - 1) * 60000 - 30000 <= T - now_check t < (minutes w + 1) * 60000 + 30000.
Proof.
  intros HT. rewrite (due_iff t e w T HT). unfold round_minutes.
  pose proof (Z.div_mod (T - now_check t + 30000) 60000 ltac:(lia)) as Hdiv.
  pose proof (Z.mod_pos_bound (T - now_check t + 30000) 60000 ltac:(lia)) as Hmod.
  lia.
Qed.

Lemma due_minutes_before t m e T k w :
  minutes_before t m e T k -> due t e w = true <-> Z.abs (k - minutes w) <= 1.
Proof.
  intros (_ & HT & late & Hlate & Hnow).
  rewrite (due_iff t e w T HT), Hnow. by rewrite round_minutes_before.
Qed.

Lemma tick_fires t m e :
  reaches t m e -> due t e window_24h = true ->
  hasFired m (key_of e window_24h) = false ->
  runReminderCheck t m =
  match deliver t e (key_of e window_24h) window_24h
          (Mem ({[key_of e window_24h]} ∪ reminderState m) (fs m)) with
  | (r, m', tr) => (r, m', ChannelFetch :: tr)
  end.
Proof.
  intros ([dt Hsel] & Hconf & Hchan) Hdue Hpending.
  rewrite runReminderCheck_eq, Hsel, Hconf, Hchan. simpl.
  by rewrite Hdue, Hpending.
Qed.

Lemma tick_idle t m e :
  reaches t m e ->
  due t e window_24h && negb (hasFired m (key_of e window_24h)) = false ->
  runReminderCheck t m = (Ok tt, m, [ChannelFetch]).
Proof.
  intros ([dt Hsel] & Hconf & Hchan) Hidle.
  rewrite runReminderCheck_eq, Hsel, Hconf, Hchan. simpl.
  by rewrite Hidle.
Qed.

Lemma listOptedIn_lists m ids :
  lists (fs m) ids -> listOptedIn m = (Ok ids, m, []).
Proof.
  intros (doc & v & Hdata & Hprop & Hiter). unfold listOptedIn.
  rewrite (bind_pure _ _ _ _ (readOptins_stored m doc Hdata)).
  unfold bind, lift. by rewrite Hprop, Hiter.
Qed.

(** ** Delivery *)

(** C6. Take a tick that delivers a reminder: it reaches the window check
    with the window open on a pending reminder, the embed is built, the
    channel takes the announcement, and the store lists recipients.
    Then, whichever recipients cannot be fetched and whichever refuse the
    direct message, the tick ends normally, the announcement is the one
    call made on the channel, every recipient of the list is tried, in
    order, and every recipient that is found is sent the message. *)
Theorem dm_failure_is_not_fatal
    (t : tick) (m : mem) (e : json) (embed : Embed) (ids : list json) :
  let key := key_of e window_24h in
  reaches t m e -> due t e window_24h = true -> hasFired m key = false ->
  formatEventEmbed e = Some embed -> channel_accepts t key = true ->
  lists (fs m) ids ->
  exists tr,
    runReminderCheck t m =
      (Ok tt, Mem ({[key]} ∪ reminderState m) (fs m),
       ChannelFetch :: ChannelSend key (message window_24h) embed :: tr) /\
    attempted key tr = ids /\
    messaged key tr = found_from t 0 ids /\
    announcements key tr = 0%nat.
Proof.
  intros key Hreach Hdue Hpending Hembed Hsend Hlists.
  rewrite (tick_fires t m e Hreach Hdue Hpending), deliver_eq, Hembed.
  fold key. rewrite Hsend.
  rewrite (listOptedIn_lists (Mem ({[key]} ∪ reminderState m) (fs m)) ids Hlists).
  destruct (dm_loop_spec t key ids 0%nat (Mem ({[key]} ∪ reminderState m) (fs m)))
    as (tr & -> & Hatt & Hmsg & Hann & _).
  exists tr. auto.
Qed.

(** C10. Take a tick that reaches the window check with the window open
    on a pending reminder and builds the embed, and let the channel
    refuse the announcement. The tick raises the delivery error after its
    one call on the channel, no recipient is tried, and the memory it
    leaves has the reminder marked fired: the marker was added before the
    send. From that memory no sequence of ticks, commands and edits
    announces the reminder again, and it stays fired. *)
Theorem marker_set_before_send
    (t : tick) (m : mem) (e : json) (embed : Embed) :
  let key := key_of e window_24h in
  let m' := Mem ({[key]} ∪ reminderState m) (fs m) in
  reaches t m e -> due t e window_24h = true -> hasFired m key = false ->
  formatEventEmbed e = Some embed -> channel_accepts t key = false ->
  runReminderCheck t m =
    (Throw DeliveryError, m',
     [ChannelFetch; ChannelSend key (message window_24h) embed]) /\
  hasFired m' key = true /\
  forall later,
    announcements key (run later m').2 = 0%nat /\
    attempted key (run later m').2 = [] /\
    hasFired (run later m').1 key = true.
Proof.
  intros key m' Hreach Hdue Hpending Hembed Hsend.
  assert (Hfired : hasFired m' key = true).
  { apply elem_of_hasFired. apply elem_of_union. left. by apply elem_of_singleton. }
  split; [|split; [done|]].
  - rewrite (tick_fires t m e Hreach Hdue Hpending), deliver_eq, Hembed.
    fold key. by rewrite Hsend.
  - intros later. pose proof (run_fired_silent later m' key Hfired) as Hsilent.
    split; [by apply silent_announcements|].
    split; [by apply silent_attempted|by apply run_keeps_fired].
Qed.

(** C2. The window of a threshold is open exactly when the rounded
    number of minutes until the start is within one minute of the
    threshold. So, for an event that starts at [T] and whose reminder is
    pending: of three ticks that reach the window check 24h01m, 24h00m
    and 23h59m before [T] (the memory of each starting with the markers
    the one before left), the first announces the reminder once and the
    other two announce nothing; and a tick 22 hours before [T] does
    nothing at all. *)
Theorem tolerance_window_fires_once
    (t1 t2 t3 : tick) (m1 m2 m3 : mem) (e : json) (T : Z) (embed : Embed) :
  let key := key_of e window_24h in
  formatEventEmbed e = Some embed ->
  hasFired m1 key = false ->
  minutes_before t1 m1 e T (24 * 60 + 1) ->
  minutes_before t2 m2 e T (24 * 60) ->
  minutes_before t3 m3 e T (24 * 60 - 1) ->
  reminderState m2 = reminderState (runReminderCheck t1 m1).1.2 ->
  reminderState m3 = reminderState (runReminderCheck t2 m2).1.2 ->
  (forall t w, due t e w = true <->
     Z.abs (round_minutes (T - now_check t) - minutes w) <= 1) /\
  announcements key (runReminderCheck t1 m1).2 = 1%nat /\
  runReminderCheck t2 m2 = (Ok tt, m2, [ChannelFetch]) /\
  runReminderCheck t3 m3 = (Ok tt, m3, [ChannelFetch]) /\
  (announcements key (runReminderCheck t1 m1).2 +
   announcements key (runReminderCheck t2 m2).2 +
   announcements key (runReminderCheck t3 m3).2 = 1)%nat /\
  (forall t m, minutes_before t m e T (22 * 60) ->
     runReminderCheck t m = (Ok tt, m, [ChannelFetch])).
Proof.
  intros key Hembed Hpending H1 H2 H3 Hm2 Hm3.
  assert (HT : fromISO (field e "startISO") = Some T) by apply H1.
  assert (Hdue1 : due t1 e window_24h = true).
  { apply (due_minutes_before t1 m1 e T _ _ H1). simpl. lia. }
  pose proof H1 as (Hreach1 & _). pose proof H2 as (Hreach2 & _).
  pose proof H3 as (Hreach3 & _).
  (* the first tick marks and announces *)
  pose proof (tick_fires t1 m1 e Hreach1 Hdue1 Hpending) as Hrun1.
  rewrite deliver_eq, Hembed in Hrun1. fold key in Hrun1.
  assert (Hfirst : reminderState (runReminderCheck t1 m1).1.2
                     = {[key]} ∪ reminderState m1 /\
                   announcements key (runReminderCheck t1 m1).2 = 1%nat).
  { rewrite Hrun1. destruct (channel_accepts t1 key).
    - destruct (quiet_listOptedIn (Mem ({[key]} ∪ reminderState m1) (fs m1)))
        as (r & d & ->). destruct r as [ids|x]; simpl.
      + destruct (dm_loop_spec t1 key ids 0%nat (Mem ({[key]} ∪ reminderState m1) d))
          as (tr & -> & _ & _ & Hann & _). simpl. split; [done|].
        by rewrite !announcements_cons, is_announcement_same, Hann.
      + split; [done|]. by rewrite !announcements_cons, is_announcement_same.
    - simpl. split; [done|]. by rewrite !announcements_cons, is_announcement_same. }
  destruct Hfirst as [Hset1 Hann1].
  (* the second and the third find it fired *)
  assert (Hfired2 : hasFired m2 key = true).
  { apply elem_of_hasFired. rewrite Hm2, Hset1.
    apply elem_of_union. left. by apply elem_of_singleton. }
  assert (Hrun2 : runReminderCheck t2 m2 = (Ok tt, m2, [ChannelFetch])).
  { apply (tick_idle t2 m2 e Hreach2). fold key. rewrite Hfired2.
    apply andb_false_r. }
  assert (Hfired3 : hasFired m3 key = true).
  { apply elem_of_hasFired. rewrite Hm3, Hrun2. simpl. by apply elem_of_hasFired. }
  assert (Hrun3 : runReminderCheck t3 m3 = (Ok tt, m3, [ChannelFetch])).
  { apply (tick_idle t3 m3 e Hreach3). fold key. rewrite Hfired3.
    apply andb_false_r. }
  split; [intros t w; by apply due_iff|].
  split; [done|]. split; [done|]. split; [done|]. split.
  - by rewrite Hann1, Hrun2, Hrun3.
  - intros t m H22. apply (tick_idle t m e); [apply H22|].
    assert (Hnot : due t e window_24h <> true).
    { rewrite (due_minutes_before t m e T _ _ H22). simpl. lia. }
    by destruct (due t e window_24h).
Qed.

(** ** No channel configured *)

Lemma selected_events t m :
  Forall (fun e => e <> JNull) (catalog_events (events_json (fs m))) ->
  exists next, selected t m = Ok next.
Proof.
  intros Hevents. unfold selected, getNextEvent.
  rewrite map_dt_events by done. by eexists.
Qed.

Lemma old_runReminderCheck_unconfigured t m :
  configured EVENT_CHANNEL_ID = false ->
  Old.runReminderCheck t m =
  match selected t m with
  | Throw x => (Throw x, m, [])
  | Ok None => (Ok tt, m, [])
  | Ok (Some _) =>
      (Ok tt, m, [Log "⚠️ EVENT_CHANNEL_ID not set — reminders won’t post."])
  end.
Proof.
  intros Hconf. unfold Old.runReminderCheck, selected.
  rewrite (bind_pure _ _ _ _ (readEvents_eq m)).
  unfold bind at 1, lift.
  destruct (getNextEvent _ _) as [[[e dt]|]|x]; [|done..].
  by rewrite Hconf.
Qed.

(** C9, as the code has it. With no channel configured, a tick of
    [runReminderCheck] leaves the memory as it is and makes no call at
    all, on the platform or on the console: it prints no notice. It ends
    normally whenever the catalog holds events (no [null] entry). The
    older reminder check behaves the same except that it prints its
    notice, once, on a tick that has a next event, and prints nothing on
    a tick that has none. *)
Theorem unconfigured_channel_is_noop (t : tick) (m : mem) :
  configured EVENT_CHANNEL_ID = false ->
  (exists r, runReminderCheck t m = (r, m, [])) /\
  (Forall (fun e => e <> JNull) (catalog_events (events_json (fs m))) ->
     runReminderCheck t m = (Ok tt, m, [])) /\
  (exists r tr, Old.runReminderCheck t m = (r, m, tr) /\
     (forall k, silent_for k tr) /\
     logged tr =
       match selected t m with
       | Ok (Some _) => ["⚠️ EVENT_CHANNEL_ID not set — reminders won’t post."]
       | _ => []
       end).
Proof.
  intros Hconf.
  assert (Hrun : runReminderCheck t m =
            (match selected t m with Throw x => Throw x | Ok _ => Ok tt end, m, [])).
  { rewrite runReminderCheck_eq.
    destruct (selected t m) as [[[e dt]|]|x]; [|done..]. by rewrite Hconf. }
  split; [by eexists|]. split.
  - intros Hevents. rewrite Hrun.
    by destruct (selected_events t m Hevents) as (next & ->).
  - rewrite (old_runReminderCheck_unconfigured t m Hconf).
    destruct (selected t m) as [[[e dt]|]|x]; eexists _, _;
      (split; [done|]); (split; [|done]); intros k; by repeat constructor.
Qed.
End Properties.

(** * The properties on the sample catalog *)

Section Samples.
Import Sample.

Local Abbreviation tick1 := (tick_before (24 * 60 + 1) true is_ana).
Local Abbreviation tick2 := (tick_before (24 * 60) true is_ana).
Local Abbreviation tick3 := (tick_before (24 * 60 - 1) true is_ana).
Local Abbreviation run1 := (@runReminderCheck lib env_set tick1 fresh).
Local Abbreviation run2 := (@runReminderCheck lib env_set tick2 run1.1.2).

Example sample_next :
  @getNextEvent lib events (T - 24 * 60 * minute) = Ok (Some (lee_foss, T)).
Proof. vm_compute. reflexivity. Qed.

Example sample_catalog_garbled :
  @readEvents string (Mem ∅ (Disk NoDir (Text Garbled) false)) =
    (Ok [], Mem ∅ (Disk NoDir (Text Garbled) false), []).
Proof. reflexivity. Qed.

Example sample_catalog_null :
  @getNextEvent lib [lee_foss; JNull] 0 = Throw TypeError.
Proof. reflexivity. Qed.

Example sample_dispatch :
  run1 =
    (Ok tt, Mem {[key]} (disk_with ["ana"; "bo"]),
     [ChannelFetch;
      ChannelSend key "⏳ **24 hours** until the next Clique Cabana." "Lee Foss";
      UserFetch key (JStr "ana"); UserSend key (JStr "ana");
      UserFetch key (JStr "bo"); UserSend key (JStr "bo")]).
Proof. vm_compute. reflexivity. Qed.

(** The older check, two hours before Lee Foss. *)
Example sample_old_two_hours :
  @Old.runReminderCheck lib env_set (tick_before (2 * 60) true is_ana) fresh =
    (Ok tt, Mem {["lee-foss:2h"]} (disk_with ["ana"; "bo"]),
     [ChannelFetch;
      ChannelSend "lee-foss:2h"
        "🔥 **2 hours** until Clique Cabana. Pre-game accordingly." "Lee Foss";
      UserFetch "lee-foss:2h" (JStr "ana"); UserSend "lee-foss:2h" (JStr "ana");
      UserFetch "lee-foss:2h" (JStr "bo"); UserSend "lee-foss:2h" (JStr "bo")]).
Proof. vm_compute. reflexivity. Qed.

(** Three ticks around the threshold, then a command, then a tick a
    minute later: one announcement in all, and the marker is there. *)
Example sample_lifetime :
  let evs := [OnTick tick1; OnTick tick2;
              OnInteraction (Interaction true "remindoff" "bo" (T - 24 * 60 * minute) true);
              OnTick tick3] in
  @announcements lib key (@run lib env_set evs fresh).2 = 1%nat /\
  @attempted lib key (@run lib env_set evs fresh).2 = [JStr "ana"; JStr "bo"] /\
  hasFired (@run lib env_set evs fresh).1 key = true.
Proof. vm_compute. repeat split. Qed.

(** Iterating a string yields its code points. *)
Example sample_chars : chars "aé🖤" = [JStr "a"; JStr "é"; JStr "🖤"].
Proof. reflexivity. Qed.

(** On a disk that refuses to create the store, reading the opt-ins raises. *)
Example sample_unwritable :
  @readOptins string (Mem ∅ (Disk NoDir Missing false)) =
    (Throw FsError, Mem ∅ (Disk NoDir Missing false), []).
Proof. reflexivity. Qed.

Ltac sample_reaches :=
  split; [exists T; vm_compute; reflexivity | split; reflexivity].

Ltac sample_minutes_before :=
  split; [sample_reaches |
          split; [reflexivity | exists 0; split; [lia | reflexivity]]].

(** C2 on the sample catalog: three ticks around 24 hours before Lee
    Foss, each starting from the memory the one before left. *)
Lemma tolerance_window_fires_once_witness :
  (forall t w, @due lib t lee_foss w = true <->
     Z.abs (round_minutes (T - now_check t) - minutes w) <= 1) /\
  @announcements lib key run1.2 = 1%nat /\
  @runReminderCheck lib env_set tick2 run1.1.2 = (Ok tt, run1.1.2, [ChannelFetch]) /\
  @runReminderCheck lib env_set tick3 run2.1.2 = (Ok tt, run2.1.2, [ChannelFetch]) /\
  (@announcements lib key run1.2 +
   @announcements lib key (@runReminderCheck lib env_set tick2 run1.1.2).2 +
   @announcements lib key (@runReminderCheck lib env_set tick3 run2.1.2).2 = 1)%nat /\
  (forall t m, @minutes_before lib env_set t m lee_foss T (22 * 60) ->
     @runReminderCheck lib env_set t m = (Ok tt, m, [ChannelFetch])).
Proof.
  apply (@tolerance_window_fires_once lib env_set tick1 tick2 tick3
           fresh run1.1.2 run2.1.2 lee_foss T "Lee Foss").
  - reflexivity.
  - vm_compute. reflexivity.
  - sample_minutes_before.
  - sample_minutes_before.
  - sample_minutes_before.
  - reflexivity.
  - reflexivity.
Defined.

(** C3 on the sample catalog, a day before Lee Foss: an event with a
    start that does not parse and a past event are in the list. *)
Lemma getNextEvent_earliest_witness :
  Forall (fun e => e <> JNull) events /\
  exists next, @getNextEvent lib events (T - 24 * 60 * minute) = Ok next /\
    match next with
    | Some (e, t) =>
        e ∈ events /\ parse (field e "startISO") = Some t /\
        T - 24 * 60 * minute < t /\
        forall e' t', e' ∈ events -> parse (field e' "startISO") = Some t' ->
          T - 24 * 60 * minute < t' -> t <= t'
    | None =>
        forall e' t', e' ∈ events -> parse (field e' "startISO") = Some t' ->
          t' <= T - 24 * 60 * minute
    end.
Proof.
  assert (Hevents : Forall (fun e => e <> JNull) events)
    by (repeat constructor; discriminate).
  split; [exact Hevents|].
  exact (@getNextEvent_earliest lib events (T - 24 * 60 * minute) Hevents).
Defined.

Local Abbreviation stored := ({["dmOptInUserIds" := JArr (JStr <$> ["ana"; "bo"])]}
                               : gmap string json).

(** C5 on the sample store: ana is listed, cy is not. *)
Lemma opt_in_out_idempotent_witness :
  holds (fs fresh) stored ["ana"; "bo"] /\
  writable (fs fresh) = true /\
  @remindme lib "ana" fresh = (Ok tt, fresh, []) /\
  (@remindme lib "cy" ;;; @remindme lib "cy") fresh = @remindme lib "cy" fresh /\
  @remindoff lib "cy" fresh = (Ok tt, fresh, []) /\
  (@remindoff lib "ana" ;;; @remindoff lib "ana") fresh = @remindoff lib "ana" fresh.
Proof.
  assert (Hholds : holds (fs fresh) stored ["ana"; "bo"]) by (split; reflexivity).
  assert (Hnodup : NoDup ["ana"; "bo"]) by compute_done.
  assert (Hana : "ana" ∈ ["ana"; "bo"]) by compute_done.
  assert (Hcy : "cy" ∉ ["ana"; "bo"]) by compute_done.
  split; [exact Hholds|]. split; [reflexivity|].
  pose proof (@opt_in_out_idempotent lib fresh stored ["ana"; "bo"] "ana"
                Hholds eq_refl) as (_ & Hpresent & _ & _ & Hoff2).
  pose proof (@opt_in_out_idempotent lib fresh stored ["ana"; "bo"] "cy"
                Hholds eq_refl) as (_ & _ & Hin2 & Habsent & _).
  split; [exact (Hpresent Hnodup Hana)|].
  split; [exact Hin2|]. split; [exact (Habsent Hcy)|exact Hoff2].
Defined.

(** C6 on the sample store: ana refuses direct messages, bo is still
    tried and reached, and the announcement is posted. *)
Lemma dm_failure_is_not_fatal_witness :
  exists tr,
    @runReminderCheck lib env_set tick2 fresh =
      (Ok tt, Mem ({[key]} ∪ ∅) (disk_with ["ana"; "bo"]),
       ChannelFetch
       :: ChannelSend key "⏳ **24 hours** until the next Clique Cabana." "Lee Foss"
       :: tr) /\
    @attempted lib key tr = [JStr "ana"; JStr "bo"] /\
    @messaged lib key tr = [JStr "ana"; JStr "bo"] /\
    @announcements lib key tr = 0%nat.
Proof.
  apply (@dm_failure_is_not_fatal lib env_set tick2 fresh lee_foss "Lee Foss"
           [JStr "ana"; JStr "bo"]).
  - sample_reaches.
  - vm_compute. reflexivity.
  - vm_compute. reflexivity.
  - reflexivity.
  - reflexivity.
  - exists (optins ["ana"; "bo"]), (Some (JArr [JStr "ana"; JStr "bo"])).
    split; [reflexivity|]. split; reflexivity.
Defined.

(** C7, as the code has it, on a disk with no data directory that
    accepts the creation of the store. *)
Lemma listOptedIn_degrades_to_empty_witness :
  writable (fs bare) = true /\
  @readOptins string bare =
    (Ok empty_optins, Mem ∅ (Disk (Dir (Text (Json empty_optins))) Missing true), []) /\
  @listOptedIn lib bare =
    (Ok [], Mem ∅ (Disk (Dir (Text (Json empty_optins))) Missing true), []).
Proof.
  split; [reflexivity|].
  exact (proj1 (proj2 (@listOptedIn_degrades_to_empty lib bare))
           (or_introl eq_refl) eq_refl).
Defined.

(** C7 as the claim states it fails: the store is missing on a disk that
    refuses to create it, and neither is it auto-initialized nor is an
    empty list returned: reading it and listing the opt-ins raise. A
    store that parses to [null] makes the listing raise as well. *)
Lemma uncreatable_store_raises :
  data (fs Cases.locked) = NoDir /\
  writable (fs Cases.locked) = false /\
  @readOptins string Cases.locked = (Throw FsError, Cases.locked, []) /\
  @listOptedIn lib Cases.locked = (Throw FsError, Cases.locked, []) /\
  @listOptedIn lib Cases.null_store = (Throw TypeError, Cases.null_store, []).
Proof. repeat split; vm_compute; reflexivity. Qed.

(** C9, as the code has it, on the sample catalog a day before Lee Foss. *)
Lemma unconfigured_channel_is_noop_witness :
  configured (@EVENT_CHANNEL_ID env_unset) = false /\
  (exists r, @runReminderCheck lib env_unset tick2 fresh = (r, fresh, [])) /\
  (Forall (fun e => e <> JNull) (catalog_events (events_json (fs fresh))) ->
     @runReminderCheck lib env_unset tick2 fresh = (Ok tt, fresh, [])) /\
  (exists r tr, @Old.runReminderCheck lib env_unset tick2 fresh = (r, fresh, tr) /\
     (forall k, @silent_for lib k tr) /\
     @logged lib tr =
       match @selected lib tick2 fresh with
       | Ok (Some _) => ["⚠️ EVENT_CHANNEL_ID not set — reminders won’t post."]
       | _ => []
       end).
Proof.
  split; [reflexivity|].
  exact (@unconfigured_channel_is_noop lib env_unset tick2 fresh eq_refl).
Defined.

(** C9 as the claim states it fails: with no channel configured and Lee
    Foss a day ahead, the tick of [runReminderCheck] makes no call at
    all, so no notice accompanies it; and the older check, which has a
    notice, prints none on a catalog without events. *)
Lemma unconfigured_channel_prints_no_notice :
  configured (@EVENT_CHANNEL_ID env_unset) = false /\
  @selected lib tick2 fresh = Ok (Some (lee_foss, T)) /\
  @due lib tick2 lee_foss window_24h = true /\
  @runReminderCheck lib env_unset tick2 fresh = (Ok tt, fresh, []) /\
  @logged lib (@runReminderCheck lib env_unset tick2 fresh).2 = [] /\
  @Old.runReminderCheck lib env_unset tick2 no_events = (Ok tt, no_events, []).
Proof. repeat split; vm_compute; reflexivity. Qed.

(** C10 on the sample catalog: the channel refuses the announcement. *)
Lemma marker_set_before_send_witness :
  @runReminderCheck lib env_set (tick_before (24 * 60) false is_ana) fresh =
    (Throw DeliveryError, Mem ({[key]} ∪ ∅) (disk_with ["ana"; "bo"]),
     [ChannelFetch;
      ChannelSend key "⏳ **24 hours** until the next Clique Cabana." "Lee Foss"]) /\
  hasFired (Mem ({[key]} ∪ ∅) (disk_with ["ana"; "bo"])) key = true /\
  forall later,
    @announcements lib key
      (@run lib env_set later (Mem ({[key]} ∪ ∅) (disk_with ["ana"; "bo"]))).2 = 0%nat /\
    @attempted lib key
      (@run lib env_set later (Mem ({[key]} ∪ ∅) (disk_with ["ana"; "bo"]))).2 = [] /\
    hasFired
      (@run lib env_set later (Mem ({[key]} ∪ ∅) (disk_with ["ana"; "bo"]))).1 key = true.
Proof.
  apply (@marker_set_before_send lib env_set (tick_before (24 * 60) false is_ana)
           fresh lee_foss "Lee Foss").
  - sample_reaches.
  - vm_compute. reflexivity.
  - vm_compute. reflexivity.
  - reflexivity.
  - reflexivity.
Defined.
End Samples.

(** * More about the files, the next event and the tick *)

Section Coverage.
Context `{Library} `{Env}.

Local Abbreviation M := (M Embed).
Local Abbreviation trace := (list (effect Embed)).

(** ** The store on disk *)

(** X1. What is written is what is read back: on a disk that accepts the
    write, [writeOptins] creates the directory and the file when they are
    missing, replaces what the file held (unparseable text included), and
    the next [readOptins] returns the document, writing nothing. *)
Theorem writeOptins_then_readOptins (m : mem) (doc : json) :
  writable (fs m) = true ->
  let m1 := Mem (reminderState m)
              (Disk (Dir (Text (Json doc))) (events_json (fs m)) true) in
  writeOptins (E := Embed) doc m = (Ok tt, m1, []) /\
  readOptins (E := Embed) m1 = (Ok doc, m1, []).
Proof.
  destruct m as [s [dd ev w]]. simpl. intros ->.
  by destruct dd as [|[|t]].
Qed.

(** X2. [ensureDataFiles] never touches a store file that exists, whatever it
    holds and whether or not the disk can be written; on a disk that can
    be written it leaves a store file in place, and running it again
    changes nothing; on a disk that cannot be written it raises exactly
    when the directory or the file is missing, and then changes nothing. *)
Theorem ensureDataFiles_creates_once (m : mem) :
  (forall t, data (fs m) = Dir (Text t) ->
     ensureDataFiles (E := Embed) m = (Ok tt, m, [])) /\
  (writable (fs m) = true ->
     exists m1 t, ensureDataFiles (E := Embed) m = (Ok tt, m1, []) /\
       data (fs m1) = Dir (Text t) /\
       events_json (fs m1) = events_json (fs m) /\
       reminderState m1 = reminderState m /\
       ensureDataFiles (E := Embed) m1 = (Ok tt, m1, [])) /\
  (writable (fs m) = false ->
     data (fs m) = NoDir \/ data (fs m) = Dir Missing ->
     ensureDataFiles (E := Embed) m = (Throw FsError, m, [])).
Proof.
  destruct m as [s [dd ev w]]. simpl. split; [|split].
  - by intros t ->.
  - intros ->. destruct dd as [|[|t]]; eexists _, _; done.
  - by intros -> [->| ->].
Qed.

(** ** The next event *)

Lemma omap_split {A B} (f : A -> option B) (l : list A) u1 y u2 :
  omap f l = u1 ++ y :: u2 ->
  exists l1 x l2, l = l1 ++ x :: l2 /\ omap f l1 = u1 /\ f x = Some y /\ omap f l2 = u2.
Proof.
  revert u1. induction l as [|a l IH]; intros u1 Heq.
  - by destruct u1.
  - cbn [omap list_omap] in Heq. destruct (f a) as [b|] eqn:Hfa.
    + destruct u1 as [|b' u1'].
      * injection Heq as -> Hrest. by exists [], a, l.
      * injection Heq as -> Hrest.
        destruct (IH u1' Hrest) as (l1 & x & l2 & -> & Hl1 & Hx & Hl2).
        exists (a :: l1), x, l2. split; [done|]. split; [|done].
        cbn [omap list_omap]. rewrite Hfa. by rewrite <- Hl1.
    + destruct (IH u1 Heq) as (l1 & x & l2 & -> & Hl1 & Hx & Hl2).
      exists (a :: l1), x, l2. split; [done|]. split; [|done].
      cbn [omap list_omap]. by rewrite Hfa.
Qed.

Lemma omap_qualifies (events : list json) now :
  omap (upcoming_at now) ((fun e => (e, fromISO (field e "startISO"))) <$> events)
  = omap (qualifies now) events.
Proof.
  induction events as [|e rest IH]; [done|].
  rewrite fmap_cons. cbn [omap list_omap]. rewrite IH. done.
Qed.

Lemma getNextEvent_head events now :
  Forall (fun e => e <> JNull) events ->
  getNextEvent events now = Ok (head (sort_by_dt (omap (qualifies now) events))).
Proof.
  intros Hevents. unfold getNextEvent. rewrite map_dt_events by done.
  by rewrite omap_qualifies.
Qed.

Lemma qualifies_Some now e x :
  qualifies now e = Some x ->
  x.1 = e /\ fromISO (field e "startISO") = Some x.2 /\ now < x.2.
Proof.
  unfold qualifies, upcoming_at. simpl.
  destruct (fromISO (field e "startISO")) as [t|]; [|done].
  destruct (Z.ltb_spec now t); [|done]. by intros [= <-].
Qed.

Lemma qualifies_intro now e t :
  fromISO (field e "startISO") = Some t -> now < t -> qualifies now e = Some (e, t).
Proof.
  intros Ht Hlt. unfold qualifies, upcoming_at. simpl. rewrite Ht.
  by destruct (Z.ltb_spec now t); [|lia].
Qed.

(** X3. Among events that start at the same earliest instant, [getNextEvent]
    returns the one that comes first in the catalog: the event returned
    sits at a position of the list before which every event that
    qualifies starts strictly later, and after which none starts earlier. *)
Theorem getNextEvent_first_of_earliest (events : list json) (now : Z) (e : json) (t : Z) :
  Forall (fun e => e <> JNull) events ->
  getNextEvent events now = Ok (Some (e, t)) ->
  exists before after, events = before ++ e :: after /\
    (forall e' t', e' ∈ before -> fromISO (field e' "startISO") = Some t' ->
       now < t' -> t < t') /\
    (forall e' t', e' ∈ after -> fromISO (field e' "startISO") = Some t' ->
       now < t' -> t <= t').
Proof.
  intros Hevents. rewrite getNextEvent_head by done. intros [= Hhead].
  apply head_sort_by_dt in Hhead as (u1 & u2 & Hsplit & Hu1 & Hu2).
  apply omap_split in Hsplit as (l1 & x & l2 & -> & Hl1 & Hx & Hl2).
  apply qualifies_Some in Hx as (Hx & _). simpl in Hx. subst x.
  exists l1, l2. split; [done|]. split.
  - intros e' t' Hin Ht' Hlt.
    assert (Hq : (e', t') ∈ u1).
    { rewrite <- Hl1. apply list_elem_of_omap. exists e'.
      split; [done|]. by apply qualifies_intro. }
    rewrite Forall_forall in Hu1. by specialize (Hu1 _ Hq).
  - intros e' t' Hin Ht' Hlt.
    assert (Hq : (e', t') ∈ u2).
    { rewrite <- Hl2. apply list_elem_of_omap. exists e'.
      split; [done|]. by apply qualifies_intro. }
    rewrite Forall_forall in Hu2. by specialize (Hu2 _ Hq).
Qed.

Lemma head_sort_by_dt_min l x :
  head (sort_by_dt l) = Some x -> x ∈ l /\ forall y, y ∈ l -> x.2 <= y.2.
Proof.
  intros Hhead. apply head_sort_by_dt in Hhead as (l1 & l2 & -> & Hl1 & Hl2).
  split; [apply elem_of_app; right; apply elem_of_cons; by left|].
  intros y Hy. apply elem_of_app in Hy as [Hy|Hy].
  - rewrite Forall_forall in Hl1. specialize (Hl1 _ Hy). simpl in Hl1. lia.
  - apply elem_of_cons in Hy as [->|Hy]; [lia|].
    rewrite Forall_forall in Hl2. by specialize (Hl2 _ Hy).
Qed.

(** X4. The instant of the next event does not depend on the order of the
    catalog: two lists with the same events, in any order, give the same
    start, or both give none. (Which of several events that start at that
    instant is returned does depend on the order.) *)
Theorem getNextEvent_start_any_order (events events' : list json) (now : Z) :
  Forall (fun e => e <> JNull) events ->
  events ≡ₚ events' ->
  exists next next',
    getNextEvent events now = Ok next /\
    getNextEvent events' now = Ok next' /\
    snd <$> next = snd <$> next'.
Proof.
  intros Hevents Hperm.
  assert (Hevents' : Forall (fun e => e <> JNull) events') by by rewrite <- Hperm.
  rewrite !getNextEvent_head by done.
  eexists _, _. split; [done|]. split; [done|].
  assert (Hq : omap (qualifies now) events ≡ₚ omap (qualifies now) events')
    by by rewrite Hperm.
  destruct (head (sort_by_dt (omap (qualifies now) events))) as [x|] eqn:Hx;
  destruct (head (sort_by_dt (omap (qualifies now) events'))) as [x'|] eqn:Hx'.
  - apply head_sort_by_dt_min in Hx as [Hin Hmin].
    apply head_sort_by_dt_min in Hx' as [Hin' Hmin'].
    rewrite Hq in Hin. rewrite <- Hq in Hin'.
    specialize (Hmin _ Hin'). specialize (Hmin' _ Hin). simpl. f_equal. lia.
  - apply head_sort_by_dt_min in Hx as [Hin _].
    apply head_None, sort_by_dt_nil in Hx'. rewrite Hq, Hx' in Hin.
    by apply elem_of_nil in Hin.
  - apply head_sort_by_dt_min in Hx' as [Hin' _].
    apply head_None, sort_by_dt_nil in Hx. rewrite <- Hq, Hx in Hin'.
    by apply elem_of_nil in Hin'.
  - done.
Qed.

(** X5. A [null] entry anywhere in the catalog stops both handlers before they
    do anything: the tick raises without a call and without a marker, and
    every slash command, the opt-in and the opt-out included, raises
    before the store is read and before any reply. *)
Theorem null_entry_stops_the_handlers (m : mem) (t : tick) (i : interaction) :
  JNull ∈ catalog_events (events_json (fs m)) ->
  runReminderCheck t m = (Throw TypeError, m, []) /\
  (isChatInputCommand i = true ->
     interactionCreate i m = (Throw TypeError, m, [])).
Proof.
  intros Hnull. split.
  - rewrite runReminderCheck_eq. unfold selected.
    by rewrite (getNextEvent_null _ _ Hnull).
  - intros Hchat. unfold interactionCreate. rewrite Hchat. simpl.
    rewrite (bind_pure _ _ _ _ (readEvents_eq m)).
    unfold bind, lift. by rewrite (getNextEvent_null _ _ Hnull).
Qed.

(** ** The window in milliseconds, and a reminder that is lost *)

Lemma tick_fires_marks t m e :
  reaches t m e -> due t e window_24h = true ->
  hasFired m (key_of e window_24h) = false ->
  exists r d tr, runReminderCheck t m =
    (r, Mem ({[key_of e window_24h]} ∪ reminderState m) d, ChannelFetch :: tr).
Proof.
  intros Hreach Hdue Hpending. rewrite (tick_fires t m e Hreach Hdue Hpending).
  destruct (deliver_summary t e (key_of e window_24h) window_24h
              (Mem ({[key_of e window_24h]} ∪ reminderState m) (fs m)))
    as (r & d & tr & -> & _). by eexists _, _, _.
Qed.

(** X6. With the next event starting at [T], a tick that reaches the window
    check marks the 24-hour reminder exactly when [T] is at least 86 310 000
    and less than 86 490 000 milliseconds away (23h58m30s to 24h01m30s);
    outside that interval it fetches the channel and does nothing else, so
    a reminder whose interval passed without a tick is never sent late. *)
Theorem tick_marks_in_ms_window (t : tick) (m : mem) (e : json) (T : Z) :
  reaches t m e ->
  fromISO (field e "startISO") = Some T ->
  let key := key_of e window_24h in
  let open := 86310000 <= T - now_check t < 86490000 in
  (hasFired (runReminderCheck t m).1.2 key = true <->
     hasFired m key = true \/ open) /\
  (~ open -> runReminderCheck t m = (Ok tt, m, [ChannelFetch])).
Proof.
  intros Hreach HT key open.
  pose proof (due_interval t e window_24h T HT) as Hdue. simpl in Hdue.
  change ((24 * 60 - 1) * 60000 - 30000) with 86310000 in Hdue.
  change ((24 * 60 + 1) * 60000 + 30000) with 86490000 in Hdue.
  fold open in Hdue.
  destruct (due t e window_24h) eqn:Hd.
  - assert (Hopen : open) by by apply Hdue.
    split; [|by intros []].
    destruct (hasFired m key) eqn:Hfired.
    + rewrite (tick_idle t m e Hreach); [simpl; tauto|].
      fold key. rewrite Hfired. apply andb_false_r.
    + destruct (tick_fires_marks t m e Hreach Hd Hfired) as (r & d & tr & ->).
      simpl. split; [tauto|]. intros _. apply elem_of_hasFired. simpl.
      apply elem_of_union. left. by apply elem_of_singleton.
  - assert (Hclosed : ~ open) by (intros Hopen; apply Hdue in Hopen; done).
    assert (Hidle : runReminderCheck t m = (Ok tt, m, [ChannelFetch])).
    { by apply (tick_idle t m e Hreach); rewrite Hd. }
    split; [|done]. rewrite Hidle. simpl. tauto.
Qed.

(** X7. When the embed builder rejects the event, the reminder is lost: the
    tick has already marked it, raises before anything is sent, and
    nothing is ever done for that reminder afterwards. *)
Theorem rejected_embed_loses_reminder (t : tick) (m : mem) (e : json) :
  let key := key_of e window_24h in
  let m' := Mem ({[key]} ∪ reminderState m) (fs m) in
  reaches t m e -> due t e window_24h = true -> hasFired m key = false ->
  formatEventEmbed e = None ->
  runReminderCheck t m = (Throw ValidationError, m', [ChannelFetch]) /\
  forall later,
    silent_for key (run later m').2 /\ hasFired (run later m').1 key = true.
Proof.
  intros key m' Hreach Hdue Hpending Hembed. split.
  - by rewrite (tick_fires t m e Hreach Hdue Hpending), deliver_eq, Hembed.
  - assert (Hfired : hasFired m' key = true).
    { apply elem_of_hasFired. apply elem_of_union. left. by apply elem_of_singleton. }
    intros later. split; [by apply run_fired_silent|by apply run_keeps_fired].
Qed.

(** ** What a tick writes *)

Lemma listOptedIn_disk (m : mem) :
  exists r d, listOptedIn m = (r, Mem (reminderState m) d, []) /\
    (d = fs m \/
     ((data (fs m) = NoDir \/ data (fs m) = Dir Missing) /\
      d = Disk (Dir (Text (Json empty_optins))) (events_json (fs m)) (writable (fs m)))).
Proof.
  destruct m as [s [dd ev w]]. unfold listOptedIn.
  destruct dd as [|[|[|d]]], w; cbn -[iterate prop]; unfold bind, lift;
    try (eexists _, _; split; [reflexivity|]; (by left) || (right; by eauto)).
  all: try (rewrite lookup_singleton_eq; simpl;
            eexists _, _; split; [reflexivity|]; (by left) || (right; by eauto)).
  all: destruct (prop d "dmOptInUserIds") as [v|x]; simpl;
       eexists _, _; (split; [reflexivity|]); by left.
Qed.

(** X8. A tick never writes the catalog and never changes a store that
    exists: the only thing it can write is the empty store, when the store
    is missing and a reminder is delivered. *)
Theorem tick_writes_only_a_missing_store (t : tick) (m : mem) :
  let m' := (runReminderCheck t m).1.2 in
  events_json (fs m') = events_json (fs m) /\
  writable (fs m') = writable (fs m) /\
  (data (fs m') = data (fs m) \/
   ((data (fs m) = NoDir \/ data (fs m) = Dir Missing) /\
    data (fs m') = Dir (Text (Json empty_optins)))).
Proof.
  assert (Hsame : forall (r : result unit) (tr : trace),
    let m' := (r, m, tr).1.2 in
    events_json (fs m') = events_json (fs m) /\
    writable (fs m') = writable (fs m) /\
    (data (fs m') = data (fs m) \/
     ((data (fs m) = NoDir \/ data (fs m) = Dir Missing) /\
      data (fs m') = Dir (Text (Json empty_optins))))).
  { simpl. auto. }
  rewrite runReminderCheck_eq.
  destruct (selected t m) as [[[e dt]|]|x]; [|by apply Hsame..].
  destruct (negb (configured EVENT_CHANNEL_ID)); [by apply Hsame|].
  destruct (negb (channel_found t)); [by apply Hsame|].
  simpl. destruct (due t e window_24h && negb _); [|by apply Hsame].
  clear Hsame. rewrite deliver_eq.
  destruct (formatEventEmbed e) as [embed|]; [|simpl; auto].
  destruct (channel_accepts t _); [|simpl; auto].
  destruct (listOptedIn_disk (Mem ({[key_of e window_24h]} ∪ reminderState m) (fs m)))
    as (r & d & -> & Hd). simpl in Hd.
  assert (Hgoal : events_json d = events_json (fs m) /\
                  writable d = writable (fs m) /\
                  (data d = data (fs m) \/
                   ((data (fs m) = NoDir \/ data (fs m) = Dir Missing) /\
                    data d = Dir (Text (Json empty_optins))))).
  { destruct Hd as [->|[Hmissing ->]]; simpl; auto. }
  destruct r as [ids|x]; [|done]. cbn [reminderState].
  by destruct (dm_loop_spec t (key_of e window_24h) ids 0%nat
                 (Mem ({[key_of e window_24h]} ∪ reminderState m) d)) as (tr & -> & _).
Qed.

(** ** Opting in and out, composed *)

Lemma elem_of_remove_id x uid ids : x ∈ remove_id uid ids <-> x <> uid /\ x ∈ ids.
Proof.
  unfold remove_id. induction ids as [|y ids IH]; simpl.
  - rewrite elem_of_nil. tauto.
  - destruct (String.eqb_spec y uid) as [->|Hne]; simpl;
      rewrite ?elem_of_cons, IH; naive_solver.
Qed.

Lemma remove_id_NoDup uid ids : NoDup ids -> NoDup (remove_id uid ids).
Proof.
  unfold remove_id. induction 1 as [|y ids Hy _ IH]; simpl; [constructor|].
  destruct (String.eqb_spec y uid) as [->|Hne]; simpl; [done|].
  constructor; [|done]. intros Hin. apply Hy.
  by apply (elem_of_remove_id y uid ids) in Hin as [_ Hin].
Qed.

Lemma two_commands (c1 c2 : M unit) m m1 :
  c1 m = (Ok tt, m1, []) -> (c1 ;;; c2) m = c2 m1.
Proof.
  intros Hc1. rewrite (bind_ok _ _ _ _ _ _ Hc1).
  by destruct (c2 m1) as [[r m2] t2].
Qed.

(** X9. Opting in and then out leaves a list without duplicates that holds
    exactly the other ids that were listed: every copy of the user is
    removed, the one just added and any the store held before. *)
Theorem opt_in_then_out
    (m : mem) (p : gmap string json) (ids : list string) (uid : string) :
  holds (fs m) p ids -> writable (fs m) = true ->
  exists ids',
    (remindme uid ;;; remindoff uid) m =
      (Ok tt, Mem (reminderState m) (rewritten (fs m) p ids'), []) /\
    NoDup ids' /\
    (forall x, x ∈ ids' <-> x <> uid /\ x ∈ ids).
Proof.
  intros Hholds Hw.
  rewrite (two_commands _ _ _ _ (remindme_eq m p ids uid Hholds Hw)).
  set (ids1 := add_id uid (uniq ids)).
  rewrite (remindoff_eq (Mem (reminderState m) (rewritten (fs m) p ids1)) _ ids1 uid
             (holds_rewritten (fs m) p ids1) Hw).
  simpl. rewrite rewritten_twice.
  exists (remove_id uid ids1). split; [done|].
  split; [apply remove_id_NoDup, add_uniq_NoDup|].
  intros x. rewrite elem_of_remove_id. unfold ids1. rewrite elem_of_add_uniq.
  naive_solver.
Qed.

(** X10. A user who opts in is put at the end of the list: after [remindme]
    of a user who is not listed in a list without duplicates, the list is
    the former one followed by the user; and opting out and in again moves
    a listed user to the end, the others keeping their order. *)
Theorem opt_in_appends
    (m : mem) (p : gmap string json) (ids : list string) (uid : string) :
  holds (fs m) p ids -> writable (fs m) = true -> NoDup ids ->
  (uid ∉ ids ->
     remindme uid m =
       (Ok tt, Mem (reminderState m) (rewritten (fs m) p (ids ++ [uid])), [])) /\
  (remindoff uid ;;; remindme uid) m =
    (Ok tt, Mem (reminderState m) (rewritten (fs m) p (remove_id uid ids ++ [uid])), []).
Proof.
  intros Hholds Hw Hnd. split.
  - intros Habsent. rewrite (remindme_eq m p ids uid Hholds Hw).
    rewrite uniq_id by done. unfold add_id. by rewrite bool_decide_eq_false_2.
  - rewrite (two_commands _ _ _ _ (remindoff_eq m p ids uid Hholds Hw)).
    set (ids1 := remove_id uid ids).
    rewrite (remindme_eq (Mem (reminderState m) (rewritten (fs m) p ids1)) _ ids1 uid
               (holds_rewritten (fs m) p ids1) Hw).
    simpl. rewrite rewritten_twice.
    rewrite uniq_id by by apply remove_id_NoDup.
    unfold add_id. rewrite bool_decide_eq_false_2; [done|]. apply remove_id_gone.
Qed.

(** X11. The first opt-in ever: with no data directory, or with a directory and
    no store in it, [remindme] creates the store and leaves in it the list
    of that one user. *)
Theorem first_opt_in_creates_store (m : mem) (uid : string) :
  data (fs m) = NoDir \/ data (fs m) = Dir Missing ->
  writable (fs m) = true ->
  remindme uid m =
    (Ok tt,
     Mem (reminderState m)
       (Disk (Dir (Text (Json (JObj {["dmOptInUserIds" := JArr [JStr uid]]}))))
             (events_json (fs m)) true), []).
Proof.
  intros Hmissing Hw. unfold remindme.
  rewrite (bind_ok _ _ _ _ _ _ (readOptins_missing m Hmissing Hw)).
  unfold bind, lift. cbn [prop empty_optins]. rewrite lookup_singleton_eq.
  cbn -[writeOptins insert singletonM].
  rewrite (writeOptins_stored _ (Json empty_optins)) by done.
  simpl. by rewrite insert_singleton_eq.
Qed.

(** ** A store of the wrong shape *)

(** X12. Take a tick that delivers a reminder and whose announcement the
    channel takes, on a store file that parses. When the document is
    [null], or its list is a value that is true and cannot be iterated (a
    number, [true], an object), the tick raises a type error after the
    announcement: no user is tried, and the reminder stays marked. When
    the document is not [null] and its list is missing or false ([null],
    [0], the empty string), the list counts as empty and the tick ends
    normally with the announcement alone. *)
Theorem wrong_shape_store (t : tick) (m : mem) (e : json) (embed : Embed) (doc : json) :
  let key := key_of e window_24h in
  let m' := Mem ({[key]} ∪ reminderState m) (fs m) in
  let announced := [ChannelFetch; ChannelSend key (message window_24h) embed] in
  reaches t m e -> due t e window_24h = true -> hasFired m key = false ->
  formatEventEmbed e = Some embed -> channel_accepts t key = true ->
  data (fs m) = Dir (Text (Json doc)) ->
  (doc = JNull -> runReminderCheck t m = (Throw TypeError, m', announced)) /\
  (forall v, prop doc "dmOptInUserIds" = Ok (Some v) -> truthy (Some v) = true ->
     iterate v = Throw TypeError ->
     runReminderCheck t m = (Throw TypeError, m', announced)) /\
  (forall v, prop doc "dmOptInUserIds" = Ok v -> truthy v = false ->
     runReminderCheck t m = (Ok tt, m', announced)).
Proof.
  intros key m' announced Hreach Hdue Hpending Hembed Hsend Hdata.
  assert (Hrun : runReminderCheck t m =
            match listOptedIn m' with
            | (Ok ids, m1, _) =>
                match dm_loop t key 0 ids m1 with
                | (r, m2, tr) =>
                    (r, m2, ChannelFetch :: ChannelSend key (message window_24h) embed :: tr)
                end
            | (Throw x, m1, _) => (Throw x, m1, announced)
            end).
  { rewrite (tick_fires t m e Hreach Hdue Hpending), deliver_eq, Hembed.
    fold key. rewrite Hsend. fold m'.
    destruct (listOptedIn m') as [[[ids|x] m1] tr0]; [|done].
    by destruct (dm_loop t key 0 ids m1) as [[r m2] tr]. }
  assert (Hread : readOptins (E := Embed) m' = (Ok doc, m', [])).
  { by apply readOptins_stored. }
  assert (Hlist : listOptedIn m' =
            match prop doc "dmOptInUserIds" with
            | Ok v => (iterate (or_else v (JArr [])), m', [])
            | Throw x => (Throw x, m', [])
            end).
  { unfold listOptedIn. rewrite (bind_pure _ _ _ _ Hread). unfold bind, lift.
    destruct (prop doc "dmOptInUserIds") as [v|x]; [|done].
    by destruct (iterate (or_else v (JArr []))). }
  rewrite Hrun, Hlist. split; [|split].
  - by intros ->.
  - intros v -> Htrue Hiter. unfold or_else. by rewrite Htrue, Hiter.
  - intros v -> Hfalse.
    assert (Hor : or_else v (JArr []) = JArr []).
    { unfold or_else. destruct v; [|done]. by rewrite Hfalse. }
    by rewrite Hor.
Qed.

(** ** Commands that only read *)

(** X13. A command other than the opt-in and the opt-out changes nothing in
    memory: it writes no file (it does not even create a missing store),
    it touches no marker, it does nothing for any reminder, and it makes
    at most one call, its reply. *)
Theorem other_commands_only_read (i : interaction) (m : mem) :
  commandName i <> "remindme" -> commandName i <> "remindoff" ->
  exists r tr, interactionCreate i m = (r, m, tr) /\
    (length tr <= 1)%nat /\
    (forall x, x ∈ tr -> exists content embed, x = Reply content embed).
Proof.
  intros Hin Hout. unfold interactionCreate.
  assert (Hnone : forall r : result unit,
    exists r' tr, (r, m, ([] : trace)) = (r', m, tr) /\ (length tr <= 1)%nat /\
      (forall x, x ∈ tr -> exists content embed, x = Reply content embed)).
  { intros r. exists r, []. split; [done|]. split; [simpl; lia|].
    intros x Hx. by apply elem_of_nil in Hx. }
  assert (Hreply : forall content embed,
    exists r' tr, reply i content embed m = (r', m, tr) /\ (length tr <= 1)%nat /\
      (forall x, x ∈ tr -> exists content embed, x = Reply content embed)).
  { intros content embed. unfold reply, bind, emit, ret, throw.
    destruct (reply_accepts i); simpl; eexists _, _; (split; [reflexivity|]);
      (split; [simpl; lia|]); intros x Hx; apply list_elem_of_singleton in Hx as ->;
      eauto. }
  destruct (isChatInputCommand i); simpl; [|apply Hnone].
  rewrite (bind_pure _ _ _ _ (readEvents_eq m)).
  destruct (getNextEvent _ _) as [next|x]; [|apply Hnone].
  rewrite (bind_pure (lift (Ok next)) _ m next eq_refl).
  destruct (String.eqb_spec (commandName i) "nextevent") as [_|_].
  - destruct next as [[e dt]|]; [|apply Hreply].
    destruct (formatEventEmbed e); [apply Hreply|apply Hnone].
  - destruct (String.eqb_spec (commandName i) "remindme") as [|_]; [done|].
    destruct (String.eqb_spec (commandName i) "remindoff") as [|_]; [done|].
    apply Hnone.
Qed.

(** ** The older reminder check against the current one *)

Lemma old_check_window_eq t e until w m :
  Old.check_window t e until w m =
  if shouldTrigger until w && negb (hasFired m (key_of e w)) then
    Old.deliver t e (key_of e w) w (Mem ({[key_of e w]} ∪ reminderState m) (fs m))
  else (Ok tt, m, []).
Proof.
  unfold Old.check_window, bind at 1, reminderState_has, hasFired.
  destruct (shouldTrigger until w && _); [|done].
  unfold bind, reminderState_add.
  by destruct (Old.deliver _ _ _ _ _) as [[r m'] tr].
Qed.

Lemma old_guard_lists v ids :
  iterate (or_else v (JArr [])) = Ok ids ->
  if truthy (Old.optional_length v) then Old.iterate_value v = Ok ids else ids = [].
Proof.
  destruct v as [[|[]|n|s|items|p]|]; simpl; try done; try by intros [= <-].
  - destruct (Z.eqb_spec n 0) as [->|Hn]; simpl; [by intros [= <-]|done].
  - destruct s as [|c s]; simpl; [by intros [= <-]|done].
  - intros [= <-]. by destruct items.
Qed.

Lemma bind_ext_at {A B} (c : M A) (k1 k2 : A -> M B) m :
  (forall a m1 t1, c m = (Ok a, m1, t1) -> k1 a m1 = k2 a m1) ->
  bind c k1 m = bind c k2 m.
Proof.
  intros Hk. unfold bind. destruct (c m) as [[[a|x] m1] t1] eqn:Hc; [|done].
  by rewrite (Hk a m1 t1).
Qed.

Lemma old_deliver_lists t e key w m ids :
  lists (fs m) ids -> Old.deliver t e key w m = deliver t e key w m.
Proof.
  intros (doc & v & Hdata & Hprop & Hiter).
  assert (Hlists : lists (fs m) ids) by by exists doc, v.
  unfold Old.deliver, deliver. destruct (formatEventEmbed e) as [embed|]; [|done].
  apply bind_ext_at. intros [] m1 t1 Hsend.
  assert (m1 = m) as ->.
  { unfold channel_send, bind, emit, ret, throw in Hsend.
    destruct (channel_accepts t key); by injection Hsend. }
  rewrite (bind_pure _ _ _ _ (readOptins_stored m doc Hdata)).
  rewrite (bind_pure _ _ _ _ (listOptedIn_lists m ids Hlists)).
  rewrite Hprop. rewrite (bind_pure (lift (Ok v)) _ m v eq_refl).
  pose proof (old_guard_lists v ids Hiter) as Hguard.
  destruct (truthy (Old.optional_length v)).
  - rewrite Hguard. by rewrite (bind_pure (lift (Ok ids)) _ m ids eq_refl).
  - by subst ids.
Qed.

Lemma old_runReminderCheck_eq t m :
  Old.runReminderCheck t m =
  match selected t m with
  | Throw x => (Throw x, m, [])
  | Ok None => (Ok tt, m, [])
  | Ok (Some (e, _)) =>
      if negb (configured EVENT_CHANNEL_ID) then
        (Ok tt, m, [Log "⚠️ EVENT_CHANNEL_ID not set — reminders won’t post."])
      else if negb (channel_found t) then (Ok tt, m, [ChannelFetch])
      else
        match Old.for_of Old.windows
                (Old.check_window t e
                   (minutesUntil (fromISO (field e "startISO")) (now_check t))) m with
        | (r, m', tr) => (r, m', ChannelFetch :: tr)
        end
  end.
Proof.
  unfold Old.runReminderCheck, selected.
  rewrite (bind_pure _ _ _ _ (readEvents_eq m)). unfold bind at 1, lift.
  destruct (getNextEvent _ _) as [[[e dt]|]|x]; [|done..].
  destruct (negb (configured EVENT_CHANNEL_ID)); [done|].
  unfold bind at 1, fetch_channel, bind at 1, emit, ret.
  destruct (negb (channel_found t)); [done|].
  by destruct (Old.for_of _ _ m) as [[r m'] tr].
Qed.

Lemma windows_apart (u : option Z) (w : window) :
  w ∈ Old.windows -> w <> window_24h ->
  shouldTrigger u w = true -> shouldTrigger u window_24h = false.
Proof.
  intros Hin Hne. unfold Old.windows in Hin.
  apply elem_of_cons in Hin as [->|Hin]; [done|].
  apply list_elem_of_singleton in Hin as ->.
  destruct u as [u|]; [|done]. unfold shouldTrigger. simpl. lia.
Qed.

Lemma old_check_same_library (t : tick) (m : mem) (ids : list json) :
  configured EVENT_CHANNEL_ID = true ->
  lists (fs m) ids ->
  (forall e dt w, selected t m = Ok (Some (e, dt)) ->
     w ∈ Old.windows -> w <> window_24h -> due t e w = false) ->
  Old.runReminderCheck t m = runReminderCheck t m.
Proof.
  intros Hconf Hlists Hclosed.
  rewrite old_runReminderCheck_eq, runReminderCheck_eq.
  destruct (selected t m) as [[[e dt]|]|x] eqn:Hsel; [|done..].
  specialize (Hclosed e dt).
  rewrite Hconf. simpl negb. cbn match.
  destruct (negb (channel_found t)); [done|].
  cbn [Old.windows Old.for_of]. unfold bind at 1.
  rewrite old_check_window_eq. fold window_24h. fold (due t e window_24h).
  assert (Hsecond : forall m1 : mem,
    (Old.check_window t e (minutesUntil (fromISO (field e "startISO")) (now_check t))
       (Window "2h" (2 * 60) "🔥 **2 hours** until Clique Cabana. Pre-game accordingly.") ;;;
     ret tt) m1 = (Ok tt, m1, [])).
  { intros m1. unfold bind at 1. rewrite old_check_window_eq.
    fold (due t e (Window "2h" (2 * 60)
            "🔥 **2 hours** until Clique Cabana. Pre-game accordingly.")).
    rewrite Hclosed; [done|done| |done].
    apply elem_of_cons. right. apply elem_of_cons. by left. }
  destruct (due t e window_24h && negb (hasFired m (key_of e window_24h))).
  - rewrite (old_deliver_lists _ _ _ _ _ ids) by done.
    destruct (deliver _ _ _ _ _) as [[[[]|x] m1] tr1]; [|done].
    rewrite Hsecond. by rewrite app_nil_r.
  - by rewrite Hsecond.
Qed.

End Coverage.

(** * The older check against the current one *)

Section Older_and_current.
Context `{Library} `{Env}.

Local Abbreviation M := (M Embed).
Local Abbreviation trace := (list (effect Embed)).

Lemma no_announcement_in (tr : trace) k line embed :
  announcements k tr = 0%nat -> ChannelSend k line embed ∉ tr.
Proof.
  unfold announcements. intros Hnone Hin.
  assert (Hfound : In (ChannelSend k line embed) (List.filter (is_announcement k) tr)).
  { apply filter_In. split; [by apply list_elem_of_In|]. simpl. apply String.eqb_refl. }
  by destruct (List.filter (is_announcement k) tr).
Qed.

(** The current check read with another embed builder that accepts the
    same events: the result and the memory are the same, the calls are
    the same but for the embed, and an announcement carries the embed of
    the builder the check is read with. *)
Lemma runReminderCheck_builder (older : json -> option Embed) (t : tick) (m : mem) :
  (forall e dt, selected t m = Ok (Some (e, dt)) ->
     older e = None <-> formatEventEmbed e = None) ->
  let other := @runReminderCheck (with_formatEventEmbed _ older) _ t m in
  let current := runReminderCheck t m in
  other.1.1 = current.1.1 /\
  other.1.2 = current.1.2 /\
  outline <$> other.2 = outline <$> current.2 /\
  (forall key line embed, ChannelSend key line embed ∈ other.2 ->
     exists e, older e = Some embed).
Proof.
  intros Halike other current. unfold other, current.
  set (L := with_formatEventEmbed _ older).
  rewrite (@runReminderCheck_eq L), (@runReminderCheck_eq H).
  change (@selected L t m) with (@selected H t m).
  assert (Hquiet : forall (r : result unit) (m' : mem) (tr : trace),
    tr = [] \/ tr = [ChannelFetch] ->
    let other := (r, m', tr) in
    other.1.1 = other.1.1 /\ other.1.2 = other.1.2 /\
    outline <$> other.2 = outline <$> other.2 /\
    (forall key line embed, ChannelSend key line embed ∈ other.2 ->
       exists e, older e = Some embed)).
  { intros r m' tr Htr. simpl. split; [done|]. split; [done|]. split; [done|].
    intros key line embed Hin. destruct Htr as [->| ->].
    - by apply elem_of_nil in Hin.
    - by apply list_elem_of_singleton in Hin. }
  destruct (@selected H t m) as [[[e dt]|]|x] eqn:Hsel;
    [|apply Hquiet; by left..].
  specialize (Halike e dt eq_refl).
  destruct (negb (configured EVENT_CHANNEL_ID)); [apply Hquiet; by left|].
  destruct (negb (channel_found t)); [apply Hquiet; by right|].
  cbv zeta.
  change (@key_of L e window_24h) with (@key_of H e window_24h).
  change (@due L t e window_24h) with (@due H t e window_24h).
  destruct (@due H t e window_24h && negb (hasFired m (@key_of H e window_24h)));
    [|apply Hquiet; by right].
  rewrite (@deliver_eq L), (@deliver_eq H).
  change (@formatEventEmbed L e) with (older e).
  set (m1 := Mem ({[@key_of H e window_24h]} ∪ reminderState m) (fs m)).
  change (@listOptedIn L m1) with (@listOptedIn H m1).
  destruct (older e) as [embed'|] eqn:Holder;
    destruct (@formatEventEmbed H e) as [embed|] eqn:Hcurrent.
  - assert (Hcarried : forall key line emb (tr : trace),
      (forall k, @announcements H k tr = 0%nat) ->
      ChannelSend key line emb ∈
        ChannelFetch :: ChannelSend (@key_of H e window_24h) (message window_24h) embed' :: tr ->
      exists e0, older e0 = Some emb).
    { intros key line emb tr Hnone Hin.
      apply elem_of_cons in Hin as [|Hin]; [done|].
      apply elem_of_cons in Hin as [Heq|Hin].
      - injection Heq as _ _ ->. by exists e.
      - by destruct (no_announcement_in tr key line emb (Hnone key)). }
    destruct (channel_accepts t (@key_of H e window_24h)).
    + destruct (@listOptedIn H m1) as [[[ids|x] m2] tr0].
      * change (@dm_loop L t (@key_of H e window_24h) 0 ids m2)
          with (@dm_loop H t (@key_of H e window_24h) 0 ids m2).
        destruct (@dm_loop_spec H t (@key_of H e window_24h) ids 0%nat m2)
          as (tr & -> & _ & _ & Hnone & _).
        split; [done|]. split; [done|]. split; [done|].
        intros key line emb. by apply Hcarried.
      * split; [done|]. split; [done|]. split; [done|].
        intros key line emb. apply (Hcarried key line emb []). done.
    + split; [done|]. split; [done|]. split; [done|].
      intros key line emb. apply (Hcarried key line emb []). done.
  - destruct Halike as [_ Hnone]. by specialize (Hnone eq_refl).
  - destruct Halike as [Hnone _]. by specialize (Hnone eq_refl).
  - apply Hquiet. by right.
Qed.

(** X14. The older check, read with the embed builder of the older file,
    against the current check. With the channel configured, a store whose
    list can be read, no window other than the 24 hour one open for the
    event that is selected, and two builders that accept the same events,
    the two checks end with the same result and the same memory and make
    the same calls in the same order but for the embed: the announcement
    of the older check carries the embed of the older builder. (The text
    of a direct message, which differs between the two files, is not part
    of a call here.) *)
Theorem older_check_agrees
    (t : tick) (m : mem) (ids : list json) (older : json -> option Embed) :
  configured EVENT_CHANNEL_ID = true ->
  lists (fs m) ids ->
  (forall e dt w, selected t m = Ok (Some (e, dt)) ->
     w ∈ Old.windows -> w <> window_24h -> due t e w = false) ->
  (forall e dt, selected t m = Ok (Some (e, dt)) ->
     older e = None <-> formatEventEmbed e = None) ->
  let old := @Old.runReminderCheck (with_formatEventEmbed _ older) _ t m in
  let current := runReminderCheck t m in
  old.1.1 = current.1.1 /\
  old.1.2 = current.1.2 /\
  outline <$> old.2 = outline <$> current.2 /\
  (forall key line embed, ChannelSend key line embed ∈ old.2 ->
     exists e, older e = Some embed).
Proof.
  intros Hconf Hlists Hclosed Halike old current. unfold old.
  rewrite (@old_check_same_library (with_formatEventEmbed _ older) _ t m ids
             Hconf Hlists Hclosed).
  by apply runReminderCheck_builder.
Qed.

(** X15. The reminder that only the older check sends: when a window of its
    list other than the 24 hour one is open for the next event (it is the
    one of 120 minutes), the 24 hour window is closed, the older check
    marks the reminder of the open window, announces it with that window's
    message and tries every listed user, and the current check, on the
    same tick, only fetches the channel. *)
Theorem older_second_window
    (t : tick) (m : mem) (e : json) (w : window) (embed : Embed) (ids : list json) :
  let key := key_of e w in
  reaches t m e -> w ∈ Old.windows -> w <> window_24h ->
  due t e w = true -> hasFired m key = false ->
  formatEventEmbed e = Some embed -> channel_accepts t key = true ->
  lists (fs m) ids ->
  minutes w = 120 /\
  runReminderCheck t m = (Ok tt, m, [ChannelFetch]) /\
  exists tr,
    Old.runReminderCheck t m =
      (Ok tt, Mem ({[key]} ∪ reminderState m) (fs m),
       ChannelFetch :: ChannelSend key (message w) embed :: tr) /\
    attempted key tr = ids /\
    messaged key tr = found_from t 0 ids.
Proof.
  intros key Hreach Hin Hne Hdue Hpending Hembed Hsend Hlists.
  pose proof (windows_apart _ w Hin Hne Hdue) as Hday. fold (due t e window_24h) in Hday.
  assert (Hw : w = Window "2h" (2 * 60)
                 "🔥 **2 hours** until Clique Cabana. Pre-game accordingly.").
  { unfold Old.windows in Hin. apply elem_of_cons in Hin as [->|Hin]; [done|].
    by apply list_elem_of_singleton in Hin. }
  split; [by rewrite Hw|].
  split; [apply (tick_idle t m e Hreach); by rewrite Hday|].
  rewrite old_runReminderCheck_eq.
  destruct Hreach as ((dt & ->) & -> & ->). simpl negb. cbn match.
  cbn [Old.windows Old.for_of]. unfold bind at 1.
  rewrite old_check_window_eq. fold window_24h. fold (due t e window_24h).
  rewrite Hday. simpl andb. cbn match.
  unfold bind at 1. rewrite old_check_window_eq. rewrite <- Hw.
  fold (due t e w). fold key. rewrite Hdue, Hpending. simpl andb. cbn match.
  set (m' := Mem ({[key]} ∪ reminderState m) (fs m)).
  rewrite (old_deliver_lists _ _ _ _ _ ids) by done.
  rewrite deliver_eq, Hembed, Hsend.
  rewrite (listOptedIn_lists m' ids) by done.
  destruct (dm_loop_spec t key ids 0%nat m') as (tr & -> & Hatt & Hmsg & _).
  exists tr. simpl. by rewrite app_nil_r.
Qed.
End Older_and_current.

(** * The welcome of a member and the start of the bot *)

Section Lifecycle_properties.
Context `{Library} `{Env} `{Guild} `{Calendar}.

(** ** Text *)

Lemma prefix_refl s : String.prefix s s = true.
Proof.
  induction s as [|c s IH]; [done|]. simpl.
  by destruct (Ascii.ascii_dec c c).
Qed.

Lemma includes_refl s : includes s s = true.
Proof. destruct s; cbn [includes]; by rewrite prefix_refl. Qed.

Lemma includes_app_r s1 s2 sub :
  includes s2 sub = true -> includes (s1 +:+ s2) sub = true.
Proof.
  intros Hin. induction s1 as [|c s1 IH]; [done|].
  simpl. rewrite IH. apply orb_true_r.
Qed.

Lemma includes_unlines_last ls sub : includes (unlines (ls ++ [sub])) sub = true.
Proof.
  induction ls as [|x ls IH]; [apply includes_refl|].
  assert (Hcons : unlines ((x :: ls) ++ [sub]) = x +:+ nl +:+ unlines (ls ++ [sub])).
  { by destruct ls. }
  rewrite Hcons. by do 2 apply includes_app_r.
Qed.

Lemma pinned_text_marker next :
  includes (pinned_text next) UPCOMING_EVENTS_PIN_MARKER = true.
Proof.
  unfold pinned_text.
  match goal with
  | |- includes (unlines ?l) _ = true =>
      change l with (removelast l ++ [UPCOMING_EVENTS_PIN_MARKER])
  end.
  apply includes_unlines_last.
Qed.

Lemma announcement_marker :
  includes FESTIVAL_ANNOUNCEMENT_TEXT ANNOUNCEMENT_PIN_MARKER = true.
Proof.
  unfold FESTIVAL_ANNOUNCEMENT_TEXT.
  match goal with
  | |- includes (unlines ?l) _ = true =>
      change l with (removelast l ++ [ANNOUNCEMENT_PIN_MARKER])
  end.
  apply includes_unlines_last.
Qed.

Lemma alreadyPinned_elem me marker ps body :
  Pinned (Some me) (Some body) ∈ ps -> includes body marker = true ->
  alreadyPinned me marker ps = true.
Proof.
  intros Hin Hmark. unfold alreadyPinned. apply existsb_exists.
  exists (Pinned (Some me) (Some body)). split; [by apply list_elem_of_In|].
  simpl. by rewrite String.eqb_refl, Hmark.
Qed.

(** ** Sequencing *)

Lemma io_bind_ok {A B} (c : IO A) (k : A -> IO B) m a m1 t1 :
  c m = (Ok a, m1, t1) ->
  io_bind c k m = (let '(r, m2, t2) := k a m1 in (r, m2, t1 ++ t2)).
Proof. intros Hc. unfold io_bind. by rewrite Hc. Qed.

Lemma io_bind_throw {A B} (c : IO A) (k : A -> IO B) m x m1 t1 :
  c m = (Throw x, m1, t1) -> io_bind c k m = (Throw x, m1, t1).
Proof. intros Hc. unfold io_bind. by rewrite Hc. Qed.

Lemma quietly_buildUpcomingEventsPinnedText now m :
  quietly (buildUpcomingEventsPinnedText now) m =
  (match getNextEvent (catalog_events (events_json (fs m))) now with
   | Ok next => Ok (pinned_text next)
   | Throw x => Throw x
   end, m, []).
Proof.
  unfold quietly, buildUpcomingEventsPinnedText.
  rewrite (bind_pure _ _ _ _ (readEvents_eq m)). unfold bind, lift, ret.
  by destruct (getNextEvent _ _).
Qed.

(** ** A member joins *)

(** X16. The private welcome never raises and changes nothing in memory; it is
    one direct message, refused or not, addressed to the display name, or
    to the user name when the display name is empty. An account younger
    than 30 days gets the line for newcomers, one older than 365 days the
    line for regulars, and one of 30 to 365 days, both ends included, no
    extra line. *)
Theorem welcome_dm_by_account_age (j : join) (m : mem) :
  let age := Date_now j - createdAt (joined j) in
  let newcomer :=
    nl +:+ nl +:+ "If you’re new to Discord or the scene, no stress — ask questions anytime." in
  let regular :=
    nl +:+ nl +:+ "Looks like you’ve been around for a minute — glad you found your way here." in
  exists name extra,
    sendPersonalWelcomeDM j m =
      (Ok tt, m,
       [MemberSend (unlines ["Welcome **" +:+ name +:+ "** 🖤"; "";
                             PUBLIC_WELCOME_TEXT +:+ extra])]) /\
    (displayName (joined j) <> "" -> name = displayName (joined j)) /\
    (displayName (joined j) = "" -> name = username (joined j)) /\
    (age < 30 * 86400000 <-> extra = newcomer) /\
    (365 * 86400000 < age <-> extra = regular) /\
    (30 * 86400000 <= age <= 365 * 86400000 <-> extra = "").
Proof.
  intros age newcomer regular.
  assert (Hnr : newcomer <> regular) by (intros Heq; vm_compute in Heq; discriminate).
  assert (Hn : newcomer <> "") by done.
  assert (Hr : regular <> "") by done.
  unfold sendPersonalWelcomeDM. fold age. fold newcomer. fold regular.
  change day with 86400000.
  eexists _, _. split.
  { unfold io_catch, io_bind, io_emit, io_ret, io_throw. by destruct (dm_accepts j). }
  split; [by destruct (String.eqb_spec (displayName (joined j)) "")|].
  split; [by destruct (String.eqb_spec (displayName (joined j)) "")|].
  destruct (Z.ltb_spec age (30 * 86400000)); [|destruct (Z.ltb_spec (365 * 86400000) age)].
  - split; [done|]. split; (split; [lia|]); intros Heq; by rewrite Heq in *.
  - split; [split; [lia|]; intros Heq; by rewrite Heq in *|].
    split; [done|]. split; [lia|]; intros Heq; by rewrite Heq in *.
  - split; [split; [lia|]; intros Heq; by rewrite <- Heq in *|].
    split; [split; [lia|]; intros Heq; by rewrite <- Heq in *|]. split; [done|lia].
Qed.

Lemma sendPersonalWelcomeDM_one (j : join) (m : mem) :
  exists dm, sendPersonalWelcomeDM j m = (Ok tt, m, [MemberSend dm]).
Proof.
  unfold sendPersonalWelcomeDM, io_catch, io_bind, io_emit, io_ret, io_throw.
  eexists. by destruct (dm_accepts j).
Qed.

(** X17. The public welcome comes first and is not guarded: when the welcome
    channel is configured and found and the post fails (the channel is
    not text based, or it refuses the message), the handler raises and
    the member gets no direct message. In every other case (no channel
    configured, channel not found, post accepted) the handler ends
    normally and its last call is the one direct message. *)
Theorem failed_public_welcome_skips_dm (j : join) (m : mem) :
  (forall ch, configured WELCOME_CHANNEL_ID = true ->
     welcome_channel j = Some ch ->
     isTextBased ch && send_accepts ch = false ->
     exists x tr, guildMemberAdd j m = (Throw x, m, tr) /\ direct_messages tr = []) /\
  (configured WELCOME_CHANNEL_ID = false \/ welcome_channel j = None \/
   (exists ch, welcome_channel j = Some ch /\ isTextBased ch && send_accepts ch = true) ->
     exists tr dm, guildMemberAdd j m = (Ok tt, m, tr ++ [MemberSend dm]) /\
       direct_messages tr = [] /\
       (sent tr = [] <-> configured WELCOME_CHANNEL_ID = false \/ welcome_channel j = None)).
Proof.
  destruct (sendPersonalWelcomeDM_one j m) as (dm & Hdm).
  unfold guildMemberAdd, postWelcomeInWelcomeChannel, configured.
  split.
  - intros ch Hconf Hfound Hfail.
    destruct WELCOME_CHANNEL_ID as [id|]; [|done].
    destruct (String.eqb id ""); [done|].
    unfold io_bind, fetch, send, io_bind, io_emit, io_ret, io_throw.
    rewrite Hfound. destruct (isTextBased ch); simpl in *; [|by eexists _, _].
    rewrite Hfail. by eexists _, _.
  - intros Hcase.
    destruct WELCOME_CHANNEL_ID as [id|].
    + destruct (String.eqb id "") eqn:Hid.
      * unfold io_bind at 1, io_ret. rewrite Hdm. exists [], dm. simpl. tauto.
      * unfold io_bind, fetch, send, io_bind, io_emit, io_ret, io_throw.
        destruct Hcase as [Hcase|[Hnone|(ch & Hfound & Hok)]]; [done| |].
        -- rewrite Hnone, Hdm. exists [FetchChannel id], dm. simpl. tauto.
        -- rewrite Hfound. apply andb_true_iff in Hok as [-> ->]. simpl.
           rewrite Hdm. eexists [_; _], dm. simpl.
           split; [done|]. split; [done|]. split; [done|]. by intros [|].
    + unfold io_bind at 1, io_ret. rewrite Hdm. exists [], dm. simpl. tauto.
Qed.

(** ** The pinned messages *)

Lemma buildUpcomingEventsPinnedText_eq now m :
  buildUpcomingEventsPinnedText now m =
  (match getNextEvent (catalog_events (events_json (fs m))) now with
   | Ok next => Ok (pinned_text next)
   | Throw x => Throw x
   end, m, []).
Proof.
  unfold buildUpcomingEventsPinnedText.
  rewrite (bind_pure _ _ _ _ (readEvents_eq m)). unfold bind, lift, ret.
  by destruct (getNextEvent _ _).
Qed.

(** X18. The text built for the pinned message always carries the marker the
    bot looks for among the pins, whatever the next event holds; building
    it reads the catalog and changes nothing, and on a catalog without a
    [null] entry it does not raise. *)
Theorem pinned_text_carries_marker (now : Z) (m : mem) :
  exists r, buildUpcomingEventsPinnedText now m = (r, m, []) /\
    (forall body, r = Ok body -> includes body UPCOMING_EVENTS_PIN_MARKER = true) /\
    (Forall (fun e => e <> JNull) (catalog_events (events_json (fs m))) ->
       exists body, r = Ok body) /\
    (JNull ∈ catalog_events (events_json (fs m)) -> r = Throw TypeError).
Proof.
  rewrite buildUpcomingEventsPinnedText_eq. eexists. split; [done|]. split; [|split].
  - intros body. destruct (getNextEvent _ _) as [next|x]; [|done].
    intros [= <-]. apply pinned_text_marker.
  - intros Hevents. rewrite getNextEvent_head by done. by eexists.
  - intros Hnull. by rewrite (getNextEvent_null _ _ Hnull).
Qed.

Lemma ensurePinnedUpcomingEventsMessage_eq s m :
  let id := default "" EVENT_CHANNEL_ID in
  ensurePinnedUpcomingEventsMessage s m =
  if negb (configured EVENT_CHANNEL_ID) then
    (Ok tt, m, [ConsoleLog "⚠️ EVENT_CHANNEL_ID not set — skipping upcoming-events pin."])
  else
  match event_channel s with
  | None => (Ok tt, m, [FetchChannel id])
  | Some ch =>
      if negb (isTextBased ch) then (Ok tt, m, [FetchChannel id]) else
      if match pins ch with
         | Some ps => alreadyPinned (client_user_id s) UPCOMING_EVENTS_PIN_MARKER ps
         | None => false
         end
      then (Ok tt, m, [FetchChannel id; FetchPinned id]) else
      match getNextEvent (catalog_events (events_json (fs m))) (start_now s) with
      | Throw x => (Throw x, m, [FetchChannel id; FetchPinned id])
      | Ok next =>
          if send_accepts ch then
            (Ok tt, m,
             [FetchChannel id; FetchPinned id; Send id (pinned_text next) []; Pin id] ++
             if pin_accepts ch then []
             else [ConsoleLog "⚠️ Could not pin upcoming-events message (missing Manage Messages permission)."])
          else
            (Throw DeliveryError, m,
             [FetchChannel id; FetchPinned id; Send id (pinned_text next) []])
      end
  end.
Proof.
  intros id. unfold ensurePinnedUpcomingEventsMessage. fold id.
  destruct (negb (configured EVENT_CHANNEL_ID)); [done|].
  rewrite (io_bind_ok _ _ m (event_channel s) m [FetchChannel id]) by done.
  destruct (event_channel s) as [ch|]; [|done].
  destruct (isTextBased ch) eqn:Htext; [|done].
  change (negb true) with false. cbv iota.
  rewrite (io_bind_ok _ _ m (pins ch) m [FetchPinned id]) by done.
  destruct (match pins ch with Some _ => _ | None => _ end); [done|].
  pose proof (quietly_buildUpcomingEventsPinnedText (start_now s) m) as Hbuild.
  destruct (getNextEvent _ _) as [next|x].
  - rewrite (io_bind_ok _ _ _ _ _ _ Hbuild).
    unfold io_bind, send, pin, io_bind, io_emit, io_ret, io_throw. rewrite Htext. simpl.
    destruct (send_accepts ch); [|done]. by destruct (pin_accepts ch).
  - by rewrite (io_bind_throw _ _ _ _ _ _ Hbuild).
Qed.

(** X19. The upcoming-events message is posted once: whatever a start of the
    bot posted in the events channel, a later start that finds that
    message, by the bot, among the pins of the channel posts nothing and
    pins nothing, whatever the catalog has become. *)
Theorem upcoming_events_posted_once
    (s s' : startup) (m m' : mem) (ch : channel) (ps : list pinned) (body : string) :
  body ∈ sent (ensurePinnedUpcomingEventsMessage s m).2 ->
  event_channel s' = Some ch ->
  pins ch = Some ps ->
  Pinned (Some (client_user_id s')) (Some body) ∈ ps ->
  exists tr, ensurePinnedUpcomingEventsMessage s' m' = (Ok tt, m', tr) /\
    sent tr = [] /\ Pin (default "" EVENT_CHANNEL_ID) ∉ tr.
Proof.
  intros Hsent Hch Hpins Hpinned.
  assert (Hmark : includes body UPCOMING_EVENTS_PIN_MARKER = true).
  { rewrite ensurePinnedUpcomingEventsMessage_eq in Hsent.
    destruct (negb (configured EVENT_CHANNEL_ID)); [by apply elem_of_nil in Hsent|].
    destruct (event_channel s) as [ch0|]; [|by apply elem_of_nil in Hsent].
    destruct (negb (isTextBased ch0)); [by apply elem_of_nil in Hsent|].
    destruct (match pins ch0 with Some _ => _ | None => _ end);
      [by apply elem_of_nil in Hsent|].
    destruct (getNextEvent _ _) as [next|x]; [|by apply elem_of_nil in Hsent].
    assert (Hbody : body = pinned_text next).
    { destruct (send_accepts ch0), (pin_accepts ch0); simpl in Hsent;
        by apply list_elem_of_singleton in Hsent. }
    rewrite Hbody. apply pinned_text_marker. }
  rewrite ensurePinnedUpcomingEventsMessage_eq, Hch, Hpins.
  rewrite (alreadyPinned_elem _ _ _ _ Hpinned Hmark).
  destruct (negb (configured EVENT_CHANNEL_ID)), (negb (isTextBased ch));
    eexists; (split; [reflexivity|]); (split; [done|]);
    rewrite ?elem_of_cons, elem_of_nil; naive_solver.
Qed.

Lemma ANNOUNCEMENTS_CHANNEL_ID_set : configured (Some ANNOUNCEMENTS_CHANNEL_ID) = true.
Proof.
  unfold ANNOUNCEMENTS_CHANNEL_ID.
  destruct ANNOUNCEMENTS_CHANNEL_ID_env as [id|]; simpl; [|done].
  by destruct (String.eqb id "") eqn:Hid; simpl; [|rewrite Hid].
Qed.

Lemma ensurePinnedAnnouncement_eq s m :
  let id := ANNOUNCEMENTS_CHANNEL_ID in
  ensurePinnedAnnouncement s m =
  match announcements_channel s with
  | None => (Ok tt, m, [FetchChannel id])
  | Some ch =>
      if negb (isTextBased ch) then (Ok tt, m, [FetchChannel id]) else
      if match pins ch with
         | Some ps => alreadyPinned (client_user_id s) ANNOUNCEMENT_PIN_MARKER ps
         | None => false
         end
      then (Ok tt, m, [FetchChannel id; FetchPinned id]) else
      if send_accepts ch then
        (Ok tt, m,
         [FetchChannel id; FetchPinned id; Send id FESTIVAL_ANNOUNCEMENT_TEXT []; Pin id] ++
         if pin_accepts ch then []
         else [ConsoleLog "⚠️ Could not pin announcement (missing Manage Messages permission)."])
      else
        (Throw DeliveryError, m,
         [FetchChannel id; FetchPinned id; Send id FESTIVAL_ANNOUNCEMENT_TEXT []])
  end.
Proof.
  intros id. unfold ensurePinnedAnnouncement.
  rewrite ANNOUNCEMENTS_CHANNEL_ID_set. change (negb true) with false. cbv iota zeta.
  fold id.
  rewrite (io_bind_ok _ _ m (announcements_channel s) m [FetchChannel id]) by done.
  destruct (announcements_channel s) as [ch|]; [|done].
  destruct (isTextBased ch) eqn:Htext; [|done].
  change (negb true) with false. cbv iota.
  rewrite (io_bind_ok _ _ m (pins ch) m [FetchPinned id]) by done.
  destruct (match pins ch with Some _ => _ | None => _ end); [done|].
  unfold io_bind, send, pin, io_bind, io_emit, io_ret, io_throw. rewrite Htext.
  cbn -[FESTIVAL_ANNOUNCEMENT_TEXT].
  destruct (send_accepts ch); [|done]. by destruct (pin_accepts ch).
Qed.

(** X20. The announcements channel is never unset: with the variable missing
    or empty the bot uses the built-in id, so every start fetches that
    channel first. Where the channel is found, is text based, and the
    pins cannot be read or hold no message by the bot with the marker,
    the announcement is posted: once it sits among the pins it is not
    posted again, and while it does not (the pin was refused) every start
    posts it anew. *)
Theorem announcement_posted_until_pinned (s : startup) (m : mem) :
  let id := ANNOUNCEMENTS_CHANNEL_ID in
  id <> "" /\
  (configured ANNOUNCEMENTS_CHANNEL_ID_env = false -> id = "1458512486125797592") /\
  exists r tr, ensurePinnedAnnouncement s m = (r, m, FetchChannel id :: tr) /\
    (forall ch ps, announcements_channel s = Some ch -> pins ch = Some ps ->
       Pinned (Some (client_user_id s)) (Some FESTIVAL_ANNOUNCEMENT_TEXT) ∈ ps ->
       r = Ok tt /\ sent tr = []) /\
    (forall ch, announcements_channel s = Some ch -> isTextBased ch = true ->
       match pins ch with
       | Some ps => alreadyPinned (client_user_id s) ANNOUNCEMENT_PIN_MARKER ps = false
       | None => True
       end ->
       sent tr = [FESTIVAL_ANNOUNCEMENT_TEXT] /\
       (r = Ok tt <-> send_accepts ch = true)).
Proof.
  intros id. split.
  { pose proof ANNOUNCEMENTS_CHANNEL_ID_set as Hset. fold id in Hset.
    intros Hid. by rewrite Hid in Hset. }
  split.
  { intros Hunset. unfold id, ANNOUNCEMENTS_CHANNEL_ID. by rewrite Hunset. }
  rewrite ensurePinnedAnnouncement_eq. fold id.
  destruct (announcements_channel s) as [ch|].
  2: { eexists _, _. split; [reflexivity|]. split; [by intros ch ps [=]|by intros ch [=]]. }
  destruct (isTextBased ch) eqn:Htext; simpl negb; cbn match.
  2: { eexists _, _. split; [reflexivity|].
       split; [done|]. intros ch' [= <-]. by rewrite Htext. }
  destruct (match pins ch with Some _ => _ | None => _ end) eqn:Hfound.
  - eexists _, _. split; [reflexivity|]. split; [done|].
    intros ch' [= <-] _. destruct (pins ch); [|done]. by rewrite Hfound.
  - assert (Hnot : forall ch' ps, Some ch = Some ch' -> pins ch' = Some ps ->
        Pinned (Some (client_user_id s)) (Some FESTIVAL_ANNOUNCEMENT_TEXT) ∈ ps -> False).
    { intros ch' ps [= <-] Hpins Hin. rewrite Hpins in Hfound.
      by rewrite (alreadyPinned_elem _ _ _ _ Hin announcement_marker) in Hfound. }
    destruct (send_accepts ch) eqn:Hsend, (pin_accepts ch); eexists _, _;
      (split; [reflexivity|]);
      (split; [intros ch' ps Hch Hpins Hin; by destruct (Hnot ch' ps Hch Hpins Hin)|]);
      intros ch' [= <-] _ _; rewrite Hsend; done.
Qed.

(** ** The start *)

Lemma registerSlashCommands_eq s m :
  let guild := default "" GUILD_ID in
  registerSlashCommands s m =
  if negb (configured GUILD_ID) then
    (Ok tt, m, [ConsoleLog "⚠️ GUILD_ID not set — skipping slash command registration."])
  else if put_accepts s then
    (Ok tt, m, [RestPut guild commands;
                ConsoleLog ("✅ Slash commands registered for guild: " +:+ guild)])
  else (Throw DeliveryError, m, [RestPut guild commands]).
Proof.
  intros guild. unfold registerSlashCommands. fold guild.
  destruct (negb (configured GUILD_ID)); [done|].
  unfold io_bind, io_emit, io_ret, io_throw. by destruct (put_accepts s).
Qed.

Lemma scheduled_cons c tr :
  scheduled (c :: tr) = ((if c is Schedule _ then 1 else 0) + scheduled tr)%nat.
Proof. unfold scheduled. simpl. by destruct c. Qed.

Lemma scheduled_app tr1 tr2 : scheduled (tr1 ++ tr2) = (scheduled tr1 + scheduled tr2)%nat.
Proof. unfold scheduled. by rewrite List.filter_app, length_app. Qed.

Lemma ensurePinnedUpcomingEventsMessage_quiet s m :
  exists r tr, ensurePinnedUpcomingEventsMessage s m = (r, m, tr) /\ scheduled tr = 0%nat.
Proof.
  rewrite ensurePinnedUpcomingEventsMessage_eq.
  destruct (negb (configured EVENT_CHANNEL_ID)); [by eexists _, _|].
  destruct (event_channel s) as [ch|]; [|by eexists _, _].
  destruct (negb (isTextBased ch)); [by eexists _, _|].
  destruct (match pins ch with Some _ => _ | None => _ end); [by eexists _, _|].
  destruct (getNextEvent _ _) as [next|x]; [|by eexists _, _].
  destruct (send_accepts ch), (pin_accepts ch); by eexists _, _.
Qed.

Lemma ensurePinnedAnnouncement_quiet s m :
  exists r tr, ensurePinnedAnnouncement s m = (r, m, tr) /\ scheduled tr = 0%nat.
Proof.
  rewrite ensurePinnedAnnouncement_eq.
  destruct (announcements_channel s) as [ch|]; [|by eexists _, _].
  destruct (negb (isTextBased ch)); [by eexists _, _|].
  destruct (match pins ch with Some _ => _ | None => _ end); [by eexists _, _|].
  destruct (send_accepts ch), (pin_accepts ch); by eexists _, _.
Qed.

Lemma clientReady_eq s m :
  clientReady s m =
  let hello := ConsoleLog ("✅ Logged in as " +:+ client_user_tag s) in
  match registerSlashCommands s m with
  | (Throw x, _, t1) => (Throw x, m, hello :: t1)
  | (Ok _, _, t1) =>
      match ensurePinnedUpcomingEventsMessage s m with
      | (Throw x, _, t2) => (Throw x, m, hello :: t1 ++ t2)
      | (Ok _, _, t2) =>
          match ensurePinnedAnnouncement s m with
          | (Throw x, _, t3) => (Throw x, m, hello :: t1 ++ t2 ++ t3)
          | (Ok _, _, t3) =>
              (Ok tt, m,
               hello :: t1 ++ t2 ++ t3 ++
               [Schedule "* * * * *";
                ConsoleLog "✅ Reminder engine running (every minute)."])
          end
      end
  end.
Proof.
  unfold clientReady. unfold io_bind at 1, io_emit at 1. unfold io_bind at 1.
  assert (Hreg : exists r tr, registerSlashCommands s m = (r, m, tr)).
  { rewrite registerSlashCommands_eq.
    destruct (negb _); [by eexists _, _|]. destruct (put_accepts s); by eexists _, _. }
  destruct Hreg as (r1 & t1 & ->). destruct r1 as [[]|x]; [|done].
  unfold io_bind at 1.
  destruct (ensurePinnedUpcomingEventsMessage_quiet s m) as (r2 & t2 & -> & _).
  destruct r2 as [[]|x]; [|done].
  unfold io_bind at 1.
  destruct (ensurePinnedAnnouncement_quiet s m) as (r3 & t3 & -> & _).
  destruct r3 as [[]|x]; [|done].
  unfold io_bind, io_emit. simpl. done.
Qed.

(** X21. The reminder check is scheduled only at the end of a start that went
    through: a start that ends normally schedules it exactly once, and a
    start that raises (the registration of the commands is refused, the
    catalog has a [null] entry when the pinned text is built, a channel
    refuses a pinned message) never schedules it, so that process sends
    no reminder. A missing [GUILD_ID] is not such a failure: the start
    logs a notice and goes on. The start changes nothing in memory. *)
Theorem reminders_scheduled_iff_start_completes (s : startup) (m : mem) :
  exists r tr, clientReady s m = (r, m, tr) /\
    scheduled tr = (if r is Ok _ then 1 else 0)%nat /\
    (configured GUILD_ID = true -> put_accepts s = false ->
       r = Throw DeliveryError /\ length tr = 2%nat) /\
    (configured GUILD_ID = false ->
       exists tr', tr =
         ConsoleLog ("✅ Logged in as " +:+ client_user_tag s)
         :: ConsoleLog "⚠️ GUILD_ID not set — skipping slash command registration."
         :: tr').
Proof.
  rewrite clientReady_eq. cbv zeta. rewrite registerSlashCommands_eq.
  destruct (ensurePinnedUpcomingEventsMessage_quiet s m) as (r2 & t2 & -> & Ht2).
  destruct (ensurePinnedAnnouncement_quiet s m) as (r3 & t3 & -> & Ht3).
  destruct (configured GUILD_ID); change (negb true) with false;
    change (negb false) with true; cbv iota; [destruct (put_accepts s)|];
    destruct r2 as [[]|x2]; destruct r3 as [[]|x3]; eexists _, _;
    (split; [reflexivity|]);
    (split; [cbn [app]; rewrite ?scheduled_cons, ?scheduled_app, ?Ht2, ?Ht3; done|]);
    (split; [done|]); first [done | intros _; by eexists].
Qed.

(** ** The commands that are registered and the commands that are answered *)

Lemma reply_eq i content embed (m : mem) :
  exists r, reply i content embed m = (r, m, [Reply content embed]) /\
    (r = Ok tt <-> reply_accepts i = true).
Proof.
  unfold reply, bind, emit, ret, throw. destruct (reply_accepts i); by eexists.
Qed.

Lemma interactionCreate_replies (i : interaction) (m : mem) :
  exists r m' tr, interactionCreate i m = (r, m', tr) /\
    (tr = [] \/
     (exists content embed, tr = [Reply content embed]) /\
     isChatInputCommand i = true /\ commandName i ∈ commands).
Proof.
  assert (Hnone : forall (r : result unit) (m' : mem),
    exists r0 m0 tr, (r, m', ([] : list (effect Embed))) = (r0, m0, tr) /\
      (tr = [] \/
       (exists content embed, tr = [Reply content embed]) /\
       isChatInputCommand i = true /\ commandName i ∈ commands)).
  { intros r m'. eexists _, _, _. split; [reflexivity|]. by left. }
  unfold interactionCreate.
  destruct (isChatInputCommand i) eqn:Hchat; simpl; [|apply Hnone].
  rewrite (bind_pure _ _ _ _ (readEvents_eq m)).
  destruct (getNextEvent _ _) as [next|x]; [|apply Hnone].
  rewrite (bind_pure (lift (Ok next)) _ m next eq_refl).
  assert (Hreply : forall content embed m1, commandName i ∈ commands ->
    exists r0 m0 tr, reply i content embed m1 = (r0, m0, tr) /\
      (tr = [] \/
       (exists content embed, tr = [Reply content embed]) /\
       true = true /\ commandName i ∈ commands)).
  { intros content embed m1 Hin. destruct (reply_eq i content embed m1) as (r & -> & _).
    eexists _, _, _. split; [reflexivity|]. right. split; [by eexists _, _|done]. }
  destruct (String.eqb_spec (commandName i) "nextevent") as [Hname|_].
  { assert (Hin : commandName i ∈ commands) by (rewrite Hname; compute_done).
    destruct next as [[e dt]|]; [|by apply Hreply].
    destruct (formatEventEmbed e); [by apply Hreply|apply Hnone]. }
  destruct (String.eqb_spec (commandName i) "remindme") as [Hname|_].
  { assert (Hin : commandName i ∈ commands) by (rewrite Hname; compute_done).
    destruct (quiet_remindme (user_id i) m) as (r & d & Hr). destruct r as [[]|x].
    - rewrite (bind_ok _ _ _ _ _ _ Hr).
      destruct (Hreply (Some "✅ You’re opted in. I’ll DM you a reminder 24 hours before events.")
                  None (Mem (reminderState m) d) Hin) as (r0 & m0 & tr & -> & Htr).
      by eexists _, _, _.
    - rewrite (bind_throw _ _ _ _ _ _ Hr). apply Hnone. }
  destruct (String.eqb_spec (commandName i) "remindoff") as [Hname|_]; [|apply Hnone].
  assert (Hin : commandName i ∈ commands) by (rewrite Hname; compute_done).
  destruct (quiet_remindoff (user_id i) m) as (r & d & Hr). destruct r as [[]|x].
  - rewrite (bind_ok _ _ _ _ _ _ Hr).
    destruct (Hreply (Some "✅ Opted out. You won’t receive event reminder DMs.")
                None (Mem (reminderState m) d) Hin) as (r0 & m0 & tr & -> & Htr).
    by eexists _, _, _.
  - rewrite (bind_throw _ _ _ _ _ _ Hr). apply Hnone.
Qed.

(** X22. The handler of the commands answers at most once, and only a command
    that the start of the bot registers: whatever list of commands
    [registerSlashCommands] sent to the platform, a command that gets a
    reply is on it. Conversely each of the three registered commands is
    answered with one reply when the catalog has no [null] entry, the
    embed of the next event can be built, the store holds a list and the
    disk can be written. *)
Theorem only_registered_commands_are_answered
    (s : startup) (m0 : mem) (i : interaction) (m : mem) :
  let tr := (interactionCreate i m).2 in
  (replies tr <= 1)%nat /\
  (replies tr = 1%nat ->
     isChatInputCommand i = true /\
     forall guild cs, RestPut guild cs ∈ (registerSlashCommands s m0).2 ->
       commandName i ∈ cs) /\
  (forall p ids, isChatInputCommand i = true -> commandName i ∈ commands ->
     Forall (fun e => e <> JNull) (catalog_events (events_json (fs m))) ->
     (forall e, formatEventEmbed e <> None) ->
     holds (fs m) p ids -> writable (fs m) = true ->
     replies tr = 1%nat).
Proof.
  intros tr. split; [|split].
  - unfold tr. destruct (interactionCreate_replies i m) as (r & m' & tr0 & -> & Htr).
    destruct Htr as [->|((content & embed & ->) & _)]; simpl; unfold replies; simpl; lia.
  - unfold tr. destruct (interactionCreate_replies i m) as (r & m' & tr0 & -> & Htr).
    destruct Htr as [->|(_ & Hchat & Hin)]; [done|]. intros _. split; [done|].
    intros guild cs. rewrite registerSlashCommands_eq.
    destruct (negb (configured GUILD_ID)); [|destruct (put_accepts s)]; simpl;
      rewrite ?elem_of_cons, elem_of_nil; intros Hput;
      destruct Hput as [Hput|Hput]; try done; try (by injection Hput as -> ->);
      destruct Hput as [Hput|Hput]; done.
  - intros p ids Hchat Hin Hevents Hembed Hholds Hw. unfold tr, interactionCreate.
    rewrite Hchat. simpl.
    rewrite (bind_pure _ _ _ _ (readEvents_eq m)).
    rewrite getNextEvent_head by done.
    rewrite (bind_pure (lift (Ok _)) _ m _ eq_refl).
    unfold commands in Hin. rewrite !elem_of_cons, elem_of_nil in Hin.
    destruct Hin as [->|[->|[->|[]]]];
      repeat match goal with
             | |- context [String.eqb ?a ?b] =>
                 let v := eval vm_compute in (String.eqb a b) in
                 change (String.eqb a b) with v
             end; cbv iota.
    + destruct (head _) as [[e dt]|].
      * destruct (formatEventEmbed e) as [embed|] eqn:He; [|by destruct (Hembed e)].
        by destruct (reply_eq i None (Some embed) m) as (r & -> & _).
      * by destruct (reply_eq i (Some "No upcoming events listed yet 🖤") None m)
          as (r & -> & _).
    + rewrite (bind_ok _ _ _ _ _ _ (remindme_eq m p ids (user_id i) Hholds Hw)).
      by destruct (reply_eq i
           (Some "✅ You’re opted in. I’ll DM you a reminder 24 hours before events.") None
           (Mem (reminderState m) (rewritten (fs m) p (add_id (user_id i) (uniq ids)))))
        as (r & -> & _).
    + rewrite (bind_ok _ _ _ _ _ _ (remindoff_eq m p ids (user_id i) Hholds Hw)).
      by destruct (reply_eq i (Some "✅ Opted out. You won’t receive event reminder DMs.") None
           (Mem (reminderState m) (rewritten (fs m) p (remove_id (user_id i) ids))))
        as (r & -> & _).
Qed.
End Lifecycle_properties.

(** * The further properties on the sample data *)

Section More_samples.
Import Sample Cases.

Local Abbreviation day_before := (tick_before (24 * 60) true is_ana).
Local Abbreviation two_hours_before := (tick_before (2 * 60) true is_ana).
Local Abbreviation stored := ({["dmOptInUserIds" := JArr (JStr <$> ["ana"; "bo"])]}
                               : gmap string json).

Ltac reaches_sample :=
  split; [exists T; vm_compute; reflexivity | split; reflexivity].

Ltac lists_sample doc v :=
  exists doc, v; split; [reflexivity|]; split; reflexivity.

(** X1 on the sample data: written to a disk with no data directory, the
    list of cy is read back. *)
Lemma writeOptins_then_readOptins_witness :
  writable (fs bare) = true /\
  writeOptins (E := string) (optins ["cy"]) bare =
    (Ok tt, Mem ∅ (Disk (Dir (Text (Json (optins ["cy"])))) Missing true), []) /\
  readOptins (E := string) (Mem ∅ (Disk (Dir (Text (Json (optins ["cy"])))) Missing true)) =
    (Ok (optins ["cy"]), Mem ∅ (Disk (Dir (Text (Json (optins ["cy"])))) Missing true), []).
Proof.
  split; [reflexivity|].
  exact (@writeOptins_then_readOptins lib bare (optins ["cy"]) eq_refl).
Defined.

(** X3 on the sample data: in the sample catalog Lee Foss comes last and is
    the next event: every event before it that qualifies starts later. *)
Lemma getNextEvent_first_of_earliest_witness :
  exists before after, events = before ++ lee_foss :: after /\
    (forall e' t', e' ∈ before -> parse (field e' "startISO") = Some t' ->
       T - 24 * 60 * minute < t' -> T < t') /\
    (forall e' t', e' ∈ after -> parse (field e' "startISO") = Some t' ->
       T - 24 * 60 * minute < t' -> T <= t').
Proof.
  apply (@getNextEvent_first_of_earliest lib events (T - 24 * 60 * minute) lee_foss T).
  - unfold events. repeat (constructor; [discriminate|]). constructor.
  - vm_compute. reflexivity.
Defined.

(** X4 on the sample data: the sample catalog read backwards gives the same
    start. *)
Lemma getNextEvent_start_any_order_witness :
  exists next next',
    @getNextEvent lib events (T - 24 * 60 * minute) = Ok next /\
    @getNextEvent lib (reverse events) (T - 24 * 60 * minute) = Ok next' /\
    snd <$> next = snd <$> next'.
Proof.
  apply (@getNextEvent_start_any_order lib events (reverse events)).
  - unfold events. repeat (constructor; [discriminate|]). constructor.
  - symmetry. apply reverse_Permutation.
Defined.

(** X5 on the sample data: a catalog whose second entry is [null]: the tick
    and the opt-in raise. *)
Lemma null_entry_stops_the_handlers_witness :
  @runReminderCheck lib env_set day_before with_null = (Throw TypeError, with_null, []) /\
  (isChatInputCommand (ask "remindme") = true ->
     @interactionCreate lib (ask "remindme") with_null = (Throw TypeError, with_null, [])).
Proof.
  apply (@null_entry_stops_the_handlers lib env_set with_null day_before (ask "remindme")).
  change (JNull ∈ [lee_foss; JNull]).
  apply elem_of_cons. right. apply elem_of_cons. by left.
Defined.

(** X6 on the sample data: a day before Lee Foss the interval is open. *)
Lemma tick_marks_in_ms_window_witness :
  (hasFired (@runReminderCheck lib env_set day_before fresh).1.2 key = true <->
     hasFired fresh key = true \/ 86310000 <= T - now_check day_before < 86490000) /\
  (~ 86310000 <= T - now_check day_before < 86490000 ->
     @runReminderCheck lib env_set day_before fresh = (Ok tt, fresh, [ChannelFetch])).
Proof.
  apply (@tick_marks_in_ms_window lib env_set day_before fresh lee_foss T).
  - reaches_sample.
  - reflexivity.
Defined.

(** X7 on the sample data: the poster of the event is not a URL: the
    reminder is marked and lost. *)
Lemma rejected_embed_loses_reminder_witness :
  @runReminderCheck strict env_set day_before with_poster =
    (Throw ValidationError, Mem ({[key]} ∪ ∅) (fs with_poster), [ChannelFetch]) /\
  forall later,
    @silent_for strict key
      (@run strict env_set later (Mem ({[key]} ∪ ∅) (fs with_poster))).2 /\
    hasFired (@run strict env_set later (Mem ({[key]} ∪ ∅) (fs with_poster))).1 key = true.
Proof.
  apply (@rejected_embed_loses_reminder strict env_set day_before with_poster poster).
  - reaches_sample.
  - vm_compute. reflexivity.
  - vm_compute. reflexivity.
  - reflexivity.
Defined.

(** X9 on the sample data: ana opts in and out of the sample store: bo is
    left. *)
Lemma opt_in_then_out_witness :
  exists ids',
    (@remindme lib "ana" ;;; @remindoff lib "ana") fresh =
      (Ok tt, Mem ∅ (rewritten (fs fresh) stored ids'), []) /\
    NoDup ids' /\
    (forall x, x ∈ ids' <-> x <> "ana" /\ x ∈ ["ana"; "bo"]).
Proof.
  apply (@opt_in_then_out lib fresh stored ["ana"; "bo"] "ana").
  - split; reflexivity.
  - reflexivity.
Defined.

(** X10 on the sample data: cy opts in to the sample store and is listed
    last; ana, who opts out and in again, moves behind bo. *)
Lemma opt_in_appends_witness :
  @remindme lib "cy" fresh =
    (Ok tt, Mem ∅ (rewritten (fs fresh) stored (["ana"; "bo"] ++ ["cy"])), []) /\
  (@remindoff lib "ana" ;;; @remindme lib "ana") fresh =
    (Ok tt, Mem ∅ (rewritten (fs fresh) stored (remove_id "ana" ["ana"; "bo"] ++ ["ana"])), []).
Proof.
  assert (Hnodup : NoDup ["ana"; "bo"]) by compute_done.
  assert (Hcy : "cy" ∉ ["ana"; "bo"]) by compute_done.
  pose proof (@opt_in_appends lib fresh stored ["ana"; "bo"] "cy"
                (conj eq_refl eq_refl) eq_refl Hnodup) as (Hin & _).
  pose proof (@opt_in_appends lib fresh stored ["ana"; "bo"] "ana"
                (conj eq_refl eq_refl) eq_refl Hnodup) as (_ & Hagain).
  split; [exact (Hin Hcy)|exact Hagain].
Defined.

(** X11 on the sample data: cy is the first to opt in, on a disk without a
    data directory. *)
Lemma first_opt_in_creates_store_witness :
  @remindme lib "cy" bare =
    (Ok tt,
     Mem ∅ (Disk (Dir (Text (Json (JObj {["dmOptInUserIds" := JArr [JStr "cy"]]}))))
                 Missing true), []).
Proof.
  exact (@first_opt_in_creates_store lib bare "cy" (or_introl eq_refl) eq_refl).
Defined.

(** X12 on the sample data: the store is [null]: the announcement is made
    and the tick raises. *)
Lemma wrong_shape_store_witness :
  @runReminderCheck lib env_set day_before null_store =
    (Throw TypeError, Mem ({[key]} ∪ ∅) (fs null_store),
     [ChannelFetch;
      ChannelSend key "⏳ **24 hours** until the next Clique Cabana." "Lee Foss"]).
Proof.
  refine (proj1 (@wrong_shape_store lib env_set day_before null_store lee_foss "Lee Foss"
                   JNull _ _ _ _ _ _) eq_refl).
  - reaches_sample.
  - vm_compute. reflexivity.
  - vm_compute. reflexivity.
  - reflexivity.
  - reflexivity.
  - reflexivity.
Defined.

(** X13 on the sample data: [/nextevent] on the sample catalog. *)
Lemma other_commands_only_read_witness :
  exists r tr, @interactionCreate lib (ask "nextevent") fresh = (r, fresh, tr) /\
    (length tr <= 1)%nat /\
    (forall x, x ∈ tr -> exists content embed, x = Reply content embed).
Proof.
  apply (@other_commands_only_read lib (ask "nextevent") fresh); discriminate.
Defined.

(** X14 on the sample data: a day before Lee Foss the older check and the
    current one agree but for the embed of the announcement. *)
Lemma older_check_agrees_witness :
  (@Old.runReminderCheck (with_formatEventEmbed lib older_embed) env_set
     day_before fresh).1.1 =
    (@runReminderCheck lib env_set day_before fresh).1.1 /\
  (@Old.runReminderCheck (with_formatEventEmbed lib older_embed) env_set
     day_before fresh).1.2 =
    (@runReminderCheck lib env_set day_before fresh).1.2 /\
  outline <$> (@Old.runReminderCheck (with_formatEventEmbed lib older_embed) env_set
                 day_before fresh).2 =
    outline <$> (@runReminderCheck lib env_set day_before fresh).2 /\
  (forall key line embed,
     ChannelSend key line embed ∈
       (@Old.runReminderCheck (with_formatEventEmbed lib older_embed) env_set
          day_before fresh).2 ->
     exists e, older_embed e = Some embed).
Proof.
  apply (@older_check_agrees lib env_set day_before fresh [JStr "ana"; JStr "bo"]
           older_embed).
  - reflexivity.
  - lists_sample (optins ["ana"; "bo"]) (Some (JArr [JStr "ana"; JStr "bo"])).
  - intros e dt w Hsel Hin Hne.
    assert (He : e = lee_foss).
    { assert (Hsample : @selected lib day_before fresh = Ok (Some (lee_foss, T)))
        by (vm_compute; reflexivity).
      rewrite Hsample in Hsel. by injection Hsel. }
    subst e. unfold Old.windows in Hin.
    apply elem_of_cons in Hin as [->|Hin]; [done|].
    apply list_elem_of_singleton in Hin as ->. vm_compute. reflexivity.
  - intros e dt _. unfold older_embed. simpl.
    by destruct (field e "title") as [[]|].
Defined.

(** X15 on the sample data: two hours before Lee Foss only the older check
    sends a reminder. *)
Lemma older_second_window_witness :
  @runReminderCheck lib env_set two_hours_before fresh = (Ok tt, fresh, [ChannelFetch]) /\
  exists tr,
    @Old.runReminderCheck lib env_set two_hours_before fresh =
      (Ok tt, Mem ({["lee-foss:2h"]} ∪ ∅) (fs fresh),
       ChannelFetch
       :: ChannelSend "lee-foss:2h"
            "🔥 **2 hours** until Clique Cabana. Pre-game accordingly." "Lee Foss"
       :: tr) /\
    @attempted lib "lee-foss:2h" tr = [JStr "ana"; JStr "bo"].
Proof.
  destruct (@older_second_window lib env_set two_hours_before fresh lee_foss
              (Window "2h" (2 * 60)
                 "🔥 **2 hours** until Clique Cabana. Pre-game accordingly.")
              "Lee Foss" [JStr "ana"; JStr "bo"])
    as (_ & Hnow & tr & Hold & Hatt & _).
  - reaches_sample.
  - apply elem_of_cons. right. apply elem_of_cons. by left.
  - discriminate.
  - vm_compute. reflexivity.
  - vm_compute. reflexivity.
  - reflexivity.
  - reflexivity.
  - lists_sample (optins ["ana"; "bo"]) (Some (JArr [JStr "ana"; JStr "bo"])).
  - split; [exact Hnow|]. exists tr. split; [exact Hold|exact Hatt].
Defined.

(** X19 on the sample data: the first start posts the text for Lee Foss; a
    later start, on an empty catalog, finds it among the pins and posts
    nothing. *)
Lemma upcoming_events_posted_once_witness :
  exists tr,
    @ensurePinnedUpcomingEventsMessage lib env_set calendar
      (boot [Pinned (Some "bot") (Some lee_foss_text)]) no_events = (Ok tt, no_events, tr) /\
    sent tr = [] /\
    Pin (default "" (@EVENT_CHANNEL_ID env_set)) ∉ tr.
Proof.
  apply (@upcoming_events_posted_once lib env_set calendar
           (boot []) (boot [Pinned (Some "bot") (Some lee_foss_text)]) fresh no_events
           (Channel true (Some [Pinned (Some "bot") (Some lee_foss_text)]) true true)
           [Pinned (Some "bot") (Some lee_foss_text)] lee_foss_text).
  - rewrite ensurePinnedUpcomingEventsMessage_eq.
    assert (Hsample : @getNextEvent lib (catalog_events (events_json (fs fresh)))
                        (start_now (boot [])) = Ok (Some (lee_foss, T)))
      by (vm_compute; reflexivity).
    rewrite Hsample. apply elem_of_cons. by left.
  - reflexivity.
  - reflexivity.
  - apply elem_of_cons. by left.
Defined.
End More_samples.
